(** * snap: retention cascade, backup planning and configuration checks

    A shallow embedding of the Go sources of [snap] (config.go, main.go)
    and the properties of its retention cascade ([cascade.insert],
    [cascade.reset]), of the backup planner ([app.backup],
    [app.backupSingle]) and of configuration loading ([loadConfig] and the
    [validate] methods).

    Conventions.
    - A [time.Time] is the integer number of nanoseconds since Go's zero
      time; a [time.Duration] is a 64-bit count of nanoseconds, and
      [Time.Sub] saturates at the two ends of that range.
    - A Go pointer that may be nil is an [option]; a slice is its backing
      array (a list whose length is the capacity) with its length.
    - A run-time panic is the result [Panic]. *)

From Stdlib Require Import ZArith Lia Ascii.
From stdpp Require Import base list sorting strings gmap.

Local Open Scope Z_scope.

(** ** Time *)

Module Time.

Definition minDuration : Z := - 2 ^ 63.
Definition maxDuration : Z := 2 ^ 63 - 1.

Definition Nanosecond : Z := 1.
Definition Second : Z := 1000000000.
Definition Minute : Z := 60 * Second.
Definition Hour : Z := 60 * Minute.

(** [t.Sub(u)]: the difference, or the nearest representable duration. *)
Definition Sub (t u : Z) : Z :=
  Z.max minDuration (Z.min maxDuration (t - u)).

(** [t.Before(u)]. *)
Definition Before (t u : Z) : bool := t <? u.

(** The zero value of [time.Time]. *)
Definition zero : Z := 0.

End Time.

(** ** Snapshots and buckets (main.go, config.go) *)

Record snap := Snap {
  path : string;
  subvolPath : string;
  created : Z
}.

Global Instance snap_eq_dec : EqDecision snap.
Proof. solve_decision. Defined.

(** [bucket]: [snaps] is a slice; [snaps_arr] is its whole backing array
    ([cap(b.snaps)] cells, [None] for nil) and [snaps_len] its length. *)
Record bucket := Bucket {
  interval : Z;
  snaps_arr : list (option snap);
  snaps_len : nat
}.

Definition cap (b : bucket) : nat := length (snaps_arr b).

Definition cascade := list bucket.

Definition newCascade : cascade := [].

(** ** [cascade.insert] *)

(** [sort.Slice(in, func(i, j) bool { return in[i].created.Before(in[j].created) })].
    The result is a permutation of the slice that is ordered by [created].
    [sort.Slice] is not stable and does not say in which order it leaves
    elements with equal keys; [merge_sort] gives one of the sorted orders,
    which need not be the one of the Go library.  With distinct timestamps
    there is one sorted order only. *)
Definition created_le (s t : snap) : Prop := created s <= created t.

Global Instance created_le_dec s t : Decision (created_le s t).
Proof. unfold created_le. apply _. Defined.

Definition sortSlice (l : list snap) : list snap := merge_sort created_le l.

(** The variables of the loop over one bucket.  [ts_in] is what the cells
    of the slice [in] hold at this moment: from the second bucket on, [in]
    and [overflow] share one backing array, and [append(overflow, t)]
    writes the cell [len(overflow)] of it. *)
Record tier_state := TierState {
  ts_in : list snap;
  ts_arr : list (option snap);
  ts_len : nat;
  ts_insertAt : nat;
  ts_prevCreated : Z;
  ts_out : list snap;
  ts_overflow : list snap
}.

(** [overflow = append(overflow, t)]. *)
Definition append_overflow (shared : bool) (t : snap) (st : tier_state)
  : tier_state :=
  {| ts_in := if shared then <[length (ts_overflow st) := t]> (ts_in st)
              else ts_in st;
     ts_arr := ts_arr st;
     ts_len := ts_len st;
     ts_insertAt := ts_insertAt st;
     ts_prevCreated := ts_prevCreated st;
     ts_out := ts_out st;
     ts_overflow := ts_overflow st ++ [t] |}.

(** The test [(i > 0 && d < b.interval) || cap(b.snaps) == 0]. *)
Definition rejects (iv : Z) (i : nat) (s : snap) (st : tier_state) : bool :=
  let d := Time.Sub (created s) (ts_prevCreated st) in
  (bool_decide (0 < i)%nat && (d <? iv))
  || bool_decide (length (ts_arr st) = 0%nat).

(** The body of [for i, s := range in]. *)
Definition visit (shared : bool) (iv : Z) (i : nat) (s : snap)
    (st : tier_state) : tier_state :=
  if rejects iv i s st
  then
    {| ts_in := ts_in st; ts_arr := ts_arr st; ts_len := ts_len st;
       ts_insertAt := ts_insertAt st; ts_prevCreated := ts_prevCreated st;
       ts_out := ts_out st ++ [s];
       ts_overflow := ts_overflow st |}
  else
    let at_ := ts_insertAt st in
    let st1 :=
      match ts_arr st !! at_ with
      | Some (Some t) => append_overflow shared t st
      | _ => st
      end in
    {| ts_in := ts_in st1;
       ts_arr := <[at_ := Some s]> (ts_arr st);
       ts_len := (at_ + 1)%nat;
       ts_insertAt := ((at_ + 1) `mod` length (ts_arr st))%nat;
       ts_prevCreated := created s;
       ts_out := ts_out st1;
       ts_overflow := ts_overflow st1 |}.

(** [n] more rounds of the range loop, from index [i]. *)
Fixpoint range_loop (shared : bool) (iv : Z) (n i : nat) (st : tier_state)
  : tier_state :=
  match n with
  | O => st
  | S n' =>
      match ts_in st !! i with
      | Some s => range_loop shared iv n' (S i) (visit shared iv i s st)
      | None => st
      end
  end.

(** The variables when the loop over bucket [b] starts. *)
Definition tier_init (b : bucket) (inp out : list snap) : tier_state :=
  {| ts_in := inp; ts_arr := snaps_arr b; ts_len := snaps_len b;
     ts_insertAt := 0; ts_prevCreated := Time.zero;
     ts_out := out; ts_overflow := [] |}.

(** One round of [for _, b := range c]: the bucket after it, the new [out]
    and the overflow, which is the next bucket's [in]. *)
Definition insert_bucket (shared : bool) (b : bucket) (inp out : list snap)
  : bucket * list snap * list snap :=
  let st := range_loop shared (interval b) (length inp) 0
              (tier_init b inp out) in
  ({| interval := interval b; snaps_arr := ts_arr st; snaps_len := ts_len st |},
   ts_out st, ts_overflow st).

Fixpoint insert_buckets (shared : bool) (c : cascade) (inp out : list snap)
  : cascade * list snap :=
  match c with
  | [] => ([], out ++ inp)
  | b :: c' =>
      let '(b', out', ov) := insert_bucket shared b inp out in
      let '(c'', res) := insert_buckets true c' ov out' in
      (b' :: c'', res)
  end.

(** [c.insert(in)]: the buckets as the call leaves them, and [out]. *)
Definition insert (c : cascade) (inp : list snap) : cascade * list snap :=
  insert_buckets false c (sortSlice inp) [].

(** ** [cascade.reset] *)

(** [for i := range b.snaps { b.snaps[i] = nil }; b.snaps = b.snaps[:0]]:
    the cells below the length are cleared, the others are left. *)
Definition reset_bucket (b : bucket) : bucket :=
  {| interval := interval b;
     snaps_arr := replicate (snaps_len b `min` cap b) None
                    ++ drop (snaps_len b) (snaps_arr b);
     snaps_len := 0 |}.

Definition reset (c : cascade) : cascade := reset_bucket <$> c.

(** What a bucket keeps: the snapshots in the cells of its ring. *)
Definition bucket_kept (b : bucket) : list snap := omap id (snaps_arr b).

Definition kept (c : cascade) : list snap := c ≫= bucket_kept.

(** ** Configuration records (config.go) *)

(** The errors the program builds with [fmt.Errorf] and [errors.New], by
    their format string. *)
Inductive error : Type :=
  | ErrIntervalMissing
  | ErrSizeMissing
  | ErrSubvolumeMissing
  | ErrBucket (i l : nat) (e : error)
  | ErrProfile (name : string) (e : error)
  | ErrOpen (name : string)
  | ErrDecode
  | ErrNotBackupProfile
  | ErrFindSnaps (dir : string)
  | ErrTransfer
  | ErrCannotBackup (p : string) (e : error).

(** What a call can end in: a value, a returned [error], or a panic. *)
Inductive result (A : Type) : Type :=
  | Ok (a : A)
  | Err (e : error)
  | Panic.
Arguments Ok {A} a.
Arguments Err {A} e.
Arguments Panic {A}.

Record bucketJSON := BucketJSON {
  Interval : option Z;
  Size : option Z
}.

(** [profileJSON]; the field [Backup] is the one [app.backup] reads. *)
Record profileJSON := ProfileJSON {
  Subvolume : option string;
  Storage : option string;
  Buckets : list (option bucketJSON);
  Backup : option string
}.

(** [configJSON]: the entries of the map [Profiles], in the order in which
    a [range] over the map meets them. *)
Record configJSON := ConfigJSON {
  Profiles : list (string * option profileJSON)
}.

(** [c.Profiles[name]]: nil when the key is absent. *)
Definition lookup_profile (c : configJSON) (name : string)
  : option profileJSON :=
  match list_find (λ e, e.1 = name) (Profiles c) with
  | Some (_, (_, p)) => p
  | None => None
  end.

(** [b.validate()], [nil] being no error; a nil receiver panics. *)
Definition bucketJSON_validate (b : option bucketJSON) : result unit :=
  match b with
  | None => Panic
  | Some b =>
      match Interval b with
      | None => Err ErrIntervalMissing
      | Some _ =>
          match Size b with
          | None => Err ErrSizeMissing
          | Some _ => Ok ()
          end
      end
  end.

(** The loop [for i, b := range p.Buckets] of [profileJSON.validate] from
    index [i], [l] being [len(p.Buckets)]. *)
Fixpoint validate_buckets (l i : nat) (bs : list (option bucketJSON))
  : result unit :=
  match bs with
  | [] => Ok ()
  | b :: bs' =>
      match bucketJSON_validate b with
      | Ok _ => validate_buckets l (S i) bs'
      | Err e => Err (ErrBucket (i + 1) l e)
      | Panic => Panic
      end
  end.

(** [p.validate()]. *)
Definition profileJSON_validate (p : option profileJSON) : result unit :=
  match p with
  | None => Panic
  | Some p =>
      match Subvolume p with
      | None => Err ErrSubvolumeMissing
      | Some _ => validate_buckets (length (Buckets p)) 0 (Buckets p)
      end
  end.

Fixpoint validate_profiles (ps : list (string * option profileJSON))
  : result unit :=
  match ps with
  | [] => Ok ()
  | (name, p) :: ps' =>
      match profileJSON_validate p with
      | Ok _ => validate_profiles ps'
      | Err e => Err (ErrProfile name e)
      | Panic => Panic
      end
  end.

(** [c.validate()]. *)
Definition configJSON_validate (c : configJSON) : result unit :=
  validate_profiles (Profiles c).

(** [loadConfig(filename)].  [open] is [os.Open] on the file system of the
    run (the bytes of the file, if it can be opened) and [decode] is
    [json.NewDecoder(f).Decode(&cfg)]. *)
Definition loadConfig (open : string → option string)
    (decode : string → option configJSON) (filename : string)
  : result configJSON :=
  match open "config.json" with
  | None => Err (ErrOpen "config.json")
  | Some f =>
      match decode f with
      | None => Err ErrDecode
      | Some cfg =>
          match configJSON_validate cfg with
          | Ok _ => Ok cfg
          | Err e => Err e
          | Panic => Panic
          end
      end
  end.

(** ** Buckets of a cascade (config.go) *)

(** [make([]*snap, 0, n)].  The run time ([runtime.makeslice]) panics,
    "makeslice: cap out of range", when [n] is negative and when [n] cells
    of [PtrSize] bytes take more than [maxAlloc] bytes; the two constants
    are those of Go on 64-bit Linux, the system of btrfs.  Within that
    limit the memory is taken to be there: a machine that cannot give it
    stops the program with a fatal error, which is not a panic and is not
    modelled.  [None] is the panic. *)
Definition PtrSize : Z := 8.

Definition maxAlloc : Z := 2 ^ 48.

Definition make_snaps (n : Z) : option (list (option snap)) :=
  if (n <? 0) || (maxAlloc <? PtrSize * n) then None
  else Some (replicate (Z.to_nat n) None).


(** [c.addBucket(b)]: [*b.Interval] and [*b.Size] panic on nil, and
    [make([]*snap, 0, *b.Size)] panics when the size is negative or beyond
    the limit of the run time. *)
Definition addBucket (c : cascade) (b : option bucketJSON) : result cascade :=
  match b with
  | Some {| Interval := Some iv; Size := Some n |} =>
      match make_snaps n with
      | Some arr =>
          Ok (c ++ [{| interval := iv; snaps_arr := arr; snaps_len := 0 |}])
      | None => Panic
      end
  | _ => Panic
  end.

(** [for _, b := range profile.Buckets { a.cascade.addBucket(b) }] of
    [app.run]. *)
Fixpoint addBuckets (c : cascade) (bs : list (option bucketJSON))
  : result cascade :=
  match bs with
  | [] => Ok c
  | b :: bs' =>
      match addBucket c b with
      | Ok c' => addBuckets c' bs'
      | Err e => Err e
      | Panic => Panic
      end
  end.

(** ** Backup (main.go) *)

(** The loop [for _, hs := range have] of [app.backupSingle]: the state is
    [parentPath] and [sendArgs]. *)
Definition send_step (s : snap) (acc : string * list string) (hs : snap)
  : string * list string :=
  (if Time.Before (created hs) (created s) then subvolPath hs else acc.1,
   acc.2 ++ ["-c"; subvolPath hs]).

Definition parentPath (s : snap) (have : list snap) : string :=
  (foldl (send_step s) ("", ["send"]) have).1.

(** The arguments of [btrfs send] that [app.backupSingle] builds. *)
Definition sendArgs (s : snap) (have : list snap) : list string :=
  let '(parent, args) := foldl (send_step s) ("", ["send"]) have in
  (if decide (parent = "") then args else args ++ ["-p"; parent])
    ++ [subvolPath s].

(** [m[s.created] = s] for each [s] of a slice, in order. *)
Definition by_created (l : list snap) : gmap Z snap :=
  foldl (λ m s, <[created s := s]> m) ∅ l.

Section Backup.

(** [findSnaps(dir)], the scan of a storage directory. *)
Variable findSnaps : string → result (list snap).

(** What the pipeline of [app.backupSingle] ends in for a snapshot and
    the arguments of [btrfs send]: [None] is [nil]. *)
Variable pipeline : snap → list string → option error.

Definition backupSingle (s : snap) (have : list snap) : option error :=
  pipeline s (sendArgs s have).

(** The last loop of [app.backup], with the calls of [backupSingle] it
    makes, in order, each with its [have]. *)
Fixpoint backup_loop (unwanted : gmap Z snap) (needS haveS : list snap)
  : list (snap * list snap) * result unit :=
  match needS with
  | [] => ([], Ok ())
  | s :: needS' =>
      if decide (is_Some (unwanted !! created s))
      then backup_loop unwanted needS' haveS
      else
        match backupSingle s haveS with
        | Some e => ([(s, haveS)], Err (ErrCannotBackup (path s) e))
        | None =>
            let '(calls, r) := backup_loop unwanted needS' (haveS ++ [s]) in
            ((s, haveS) :: calls, r)
        end
  end.

(** The sets [app.backup] computes from the two scans. *)
Definition need_of (src dst : list snap) : gmap Z snap :=
  filter (λ e, by_created dst !! e.1 = None) (by_created src).

Definition have_of (src dst : list snap) : gmap Z snap :=
  filter (λ e, is_Some (by_created dst !! e.1)) (by_created src).

(** [needS] and [haveS]: the values of the map in the order its [range]
    gives them, then sorted.  The timestamps are the keys of the map, so no
    two are equal and the sorted slice is the same for every such order. *)
Definition needS_of (src dst : list snap) : list snap :=
  sortSlice (map_to_list (need_of src dst)).*2.

Definition haveS_of (src dst : list snap) : list snap :=
  sortSlice (map_to_list (have_of src dst)).*2.

Definition unwanted_of (c : cascade) (src dst : list snap) : gmap Z snap :=
  by_created (insert c (dst ++ needS_of src dst)).2.

(** [a.backup(p)] after the two scans: the cascade as [reset] leaves it,
    the calls of [backupSingle], and the result. *)
Definition backup_plan (c : cascade) (src dst : list snap)
  : cascade * list (snap * list snap) * result unit :=
  let needS := needS_of src dst in
  let c' := reset (insert c (dst ++ needS)).1 in
  let '(calls, r) :=
    backup_loop (unwanted_of c src dst) needS (haveS_of src dst) in
  (c', calls, r).

(** [a.backup(p)]. *)
Definition backup (cfg : configJSON) (c : cascade) (p : profileJSON)
  : cascade * list (snap * list snap) * result unit :=
  match Backup p with
  | None => (c, [], Err ErrNotBackupProfile)
  | Some name =>
      match lookup_profile cfg name with
      | None => (c, [], Panic)
      | Some srcProfile =>
          match Storage srcProfile with
          | None => (c, [], Panic)
          | Some srcDir =>
              match findSnaps srcDir with
              | Ok src =>
                  match Storage p with
                  | None => (c, [], Panic)
                  | Some dstDir =>
                      match findSnaps dstDir with
                      | Ok dst => backup_plan c src dst
                      | Err e => (c, [], Err e)
                      | Panic => (c, [], Panic)
                      end
                  end
              | Err e => (c, [], Err e)
              | Panic => (c, [], Panic)
              end
          end
      end
  end.

End Backup.

(** ** Fixtures *)

Definition tier (iv n : Z) : option bucketJSON :=
  Some {| Interval := Some iv; Size := Some n |}.

Definition at_minute (m : Z) : snap :=
  {| path := ""; subvolPath := ""; created := m * Time.Minute |}.

(** ** Views of the loop state used in the proofs *)

(** The state without the cells of [in]. *)
Definition erase (st : tier_state) : tier_state :=
  {| ts_in := []; ts_arr := ts_arr st; ts_len := ts_len st;
     ts_insertAt := ts_insertAt st; ts_prevCreated := ts_prevCreated st;
     ts_out := ts_out st; ts_overflow := ts_overflow st |}.

(** The range loop over a list that nothing writes to. *)
Fixpoint tier_fold (iv : Z) (i : nat) (l : list snap) (st : tier_state)
  : tier_state :=
  match l with
  | [] => st
  | s :: l' => tier_fold iv (S i) l' (visit false iv i s st)
  end.

(** The ring read from the cell that is written next. *)
Definition ring_view (at_ : nat) (arr : list (option snap))
  : list (option snap) :=
  drop at_ arr ++ take at_ arr.

(** The snapshots that went through the ring, oldest first: those pushed
    out, then those in it. *)
Definition accepted (st : tier_state) : list snap :=
  ts_overflow st ++ omap id (ring_view (ts_insertAt st) (ts_arr st)).

(** The write index is a cell of the ring, if the ring has cells. *)
Definition index_ok (st : tier_state) : Prop :=
  length (ts_arr st) = 0%nat ∨ (ts_insertAt st < length (ts_arr st))%nat.

(** [t] is not before [s] and at least [iv] after it. *)
Definition spaced (iv : Z) (s t : snap) : Prop :=
  created s <= created t ∧ iv <= created t - created s.

(** [s] and [t] are at least [iv] apart. *)
Definition apart (iv : Z) (s t : snap) : Prop :=
  iv <= Z.abs (created s - created t).

(** A bucket as [addBucket] makes it. *)
Definition fresh_bucket (b : bucket) : Prop :=
  snaps_arr b = replicate (cap b) None ∧ snaps_len b = 0%nat.

(** What holds before round [i] of the loop over a bucket that started
    empty, [l] being the snapshots still to come. *)
Definition tier_inv (iv : Z) (i : nat) (l : list snap) (st : tier_state)
  : Prop :=
  index_ok st
  ∧ (i = 0%nat → accepted st = [])
  ∧ StronglySorted (spaced iv) (accepted st)
  ∧ (∀ r, r ∈ accepted st → created r <= ts_prevCreated st)
  ∧ (accepted st ≠ [] → ∀ s, s ∈ l → ts_prevCreated st <= created s)
  ∧ StronglySorted created_le l.

(** ** The plan of a backup run *)

(** The snapshots of [needS] that the last loop of [app.backup] does not
    skip. *)
Definition toSend_of (c : cascade) (src dst : list snap) : list snap :=
  filter (λ s, unwanted_of c src dst !! created s = None) (needS_of src dst).

(** The calls of [backupSingle] for the snapshots [toSend] when none of
    them fails: each comes with [haveS] and the snapshots sent before it. *)
Fixpoint plan_calls (haveS toSend : list snap) : list (snap * list snap) :=
  match toSend with
  | [] => []
  | s :: toSend' => (s, haveS) :: plan_calls (haveS ++ [s]) toSend'
  end.

(** [s] is made strictly before [t]. *)
Definition created_lt (s t : snap) : Prop := created s < created t.

(** ** [insert] with its run-time checks *)

(** The body of the range loop with the checks of the Go run time: the
    slice expression [b.snaps[0 : insertAt+1]] needs [insertAt+1] within
    the capacity, the index expression needs a cell, and [%] a divisor
    that is not zero; [None] is a panic.  With [guard] the test is the one
    of config.go; without, it is the one of the first version of [insert]
    (src/unnamed/part_000), [i > 0 && interval < b.interval]. *)
Definition visit_checked (guard shared : bool) (iv : Z) (i : nat) (s : snap)
    (st : tier_state) : option tier_state :=
  let d := Time.Sub (created s) (ts_prevCreated st) in
  if (bool_decide (0 < i)%nat && (d <? iv))
     || (guard && bool_decide (length (ts_arr st) = 0%nat))
  then
    Some {| ts_in := ts_in st; ts_arr := ts_arr st; ts_len := ts_len st;
            ts_insertAt := ts_insertAt st;
            ts_prevCreated := ts_prevCreated st;
            ts_out := ts_out st ++ [s];
            ts_overflow := ts_overflow st |}
  else
    let at_ := ts_insertAt st in
    if bool_decide (at_ + 1 ≤ length (ts_arr st))%nat then
      match ts_arr st !! at_ with
      | Some cell =>
          let st1 :=
            match cell with
            | Some t => append_overflow shared t st
            | None => st
            end in
          if bool_decide (length (ts_arr st) = 0%nat) then None
          else
            Some {| ts_in := ts_in st1;
                    ts_arr := <[at_ := Some s]> (ts_arr st);
                    ts_len := (at_ + 1)%nat;
                    ts_insertAt := ((at_ + 1) `mod` length (ts_arr st))%nat;
                    ts_prevCreated := created s;
                    ts_out := ts_out st1;
                    ts_overflow := ts_overflow st1 |}
      | None => None
      end
    else None.

Fixpoint range_loop_checked (guard shared : bool) (iv : Z) (n i : nat)
    (st : tier_state) : option tier_state :=
  match n with
  | O => Some st
  | S n' =>
      match ts_in st !! i with
      | Some s =>
          match visit_checked guard shared iv i s st with
          | Some st' => range_loop_checked guard shared iv n' (S i) st'
          | None => None
          end
      | None => Some st
      end
  end.

Definition insert_bucket_checked (guard shared : bool) (b : bucket)
    (inp out : list snap) : option (bucket * list snap * list snap) :=
  match range_loop_checked guard shared (interval b) (length inp) 0
          (tier_init b inp out) with
  | Some st =>
      Some ({| interval := interval b; snaps_arr := ts_arr st;
               snaps_len := ts_len st |}, ts_out st, ts_overflow st)
  | None => None
  end.

Fixpoint insert_buckets_checked (guard shared : bool) (c : cascade)
    (inp out : list snap) : option (cascade * list snap) :=
  match c with
  | [] => Some ([], out ++ inp)
  | b :: c' =>
      match insert_bucket_checked guard shared b inp out with
      | Some (b', out', ov) =>
          match insert_buckets_checked guard true c' ov out' with
          | Some (c'', res) => Some (b' :: c'', res)
          | None => None
          end
      | None => None
      end
  end.

Definition insert_checked (guard : bool) (c : cascade) (inp : list snap)
  : option (cascade * list snap) :=
  insert_buckets_checked guard false c (sortSlice inp) [].

(** ** What one bucket takes *)

(** The snapshots a bucket with cells takes from its input and those it
    refuses: it takes the first one, and then each one that is not less
    than [iv] after the last one taken; [prev] is the timestamp of that
    one. *)
Fixpoint select (iv : Z) (prev : option Z) (l : list snap)
  : list snap * list snap :=
  match l with
  | [] => ([], [])
  | s :: l' =>
      if match prev with
         | Some p => Time.Sub (created s) p <? iv
         | None => false
         end
      then let '(taken, refused) := select iv prev l' in
           (taken, s :: refused)
      else let '(taken, refused) := select iv (Some (created s)) l' in
           (s :: taken, refused)
  end.

(** ** The cascade on lists *)

(** One tier as a function on lists, [cells] being the cells of its ring
    when the loop starts: the snapshots it rejects, those it displaces
    from its ring, and those it holds in the end.  A tier without cells
    rejects all that it is offered.  A tier with cells rejects what
    [select] refuses; its ring is a queue that starts as the cells, in
    order, and each snapshot taken goes in at the end and pushes out the
    cell at the front: the snapshots pushed out are displaced, those left
    are held. *)
Definition tier_lists (iv : Z) (cells : list (option snap))
    (inp : list snap) : list snap * list snap * list snap :=
  let '(taken, refused) :=
    if decide (cells = []) then ([], inp) else select iv None inp in
  let queue := cells ++ (Some <$> taken) in
  (refused,
   omap id (take (length taken) queue),
   omap id (drop (length taken) queue)).

(** The cascade as a function on lists, for tiers given by interval and
    cells: a tier is offered what the tier before it displaces, and nothing
    else; the result is what each tier holds, and the evicted snapshots:
    those rejected by the tiers, tier after tier, and then those displaced
    out of the last tier. *)
Fixpoint cascade_lists (tiers : list (Z * list (option snap)))
    (inp : list snap) : list (list snap) * list snap :=
  match tiers with
  | [] => ([], inp)
  | (iv, cells) :: tiers' =>
      let '(rejected, displaced, held) := tier_lists iv cells inp in
      let '(helds, evicted) := cascade_lists tiers' displaced in
      (held :: helds, rejected ++ evicted)
  end.

(** The ring, read from the cell that is written next, is made of free
    cells followed by the snapshots in it, oldest first; nothing has left
    the ring while it has a free cell; the write index and the length of
    [b.snaps] are those of a ring filled in turn. *)
Definition ring_inv (st : tier_state) : Prop :=
  (0 < length (ts_arr st))%nat
  ∧ (∃ (j : nat) (ring : list snap),
       ring_view (ts_insertAt st) (ts_arr st)
       = replicate j None ++ (Some <$> ring)
       ∧ ((0 < j)%nat → ts_overflow st = []))
  ∧ ts_insertAt st = (length (accepted st) `mod` length (ts_arr st))%nat
  ∧ (accepted st ≠ [] →
     ts_len st
     = ((length (accepted st) - 1) `mod` length (ts_arr st) + 1)%nat).

(** ** [BucketInterval.UnmarshalText] (config.go) *)

Module BucketInterval.

Definition day : Z := 24 * Time.Hour.
Definition week : Z := 7 * day.
Definition month : Z := 30 * day.
Definition year : Z := 365 * day.

(** The value of a 64-bit integer after an operation that wraps around. *)
Definition wrap64 (z : Z) : Z := (z + 2 ^ 63) `mod` 2 ^ 64 - 2 ^ 63.

(** The errors of [UnmarshalText], which the deferred function wraps in
    "invalid interval". *)
Inductive parse_error : Type :=
  | Blank
  | BadNumber
  | BadUnit (unit_ : Ascii.ascii).

(** [ns, unit := s[0:l], s[l]] with [l := len(s) - 1]. *)
Fixpoint split_last (s : string) : option (string * Ascii.ascii) :=
  match s with
  | EmptyString => None
  | String a EmptyString => Some (EmptyString, a)
  | String a s' =>
      match split_last s' with
      | Some (ns, u) => Some (String a ns, u)
      | None => None
      end
  end.

(** The cases of the [switch] on the unit. *)
Definition unit_duration (u : Ascii.ascii) : option Z :=
  if decide (u = "s"%char) then Some Time.Second
  else if decide (u = "m"%char) then Some Time.Minute
  else if decide (u = "h"%char) then Some Time.Hour
  else if decide (u = "d"%char) then Some day
  else if decide (u = "w"%char) then Some week
  else if decide (u = "M"%char) then Some month
  else if decide (u = "y"%char) then Some year
  else None.

Section UnmarshalText.

(** [strconv.Atoi]: the integer, or [None] for its error. *)
Variable Atoi : string → option Z.

(** [d.UnmarshalText(text)]: the value of [*d] after the call, and the
    error. *)
Definition UnmarshalText (d : Z) (text : string) : Z * option parse_error :=
  match split_last text with
  | None => (d, Some Blank)
  | Some (ns, u) =>
      match Atoi ns with
      | None => (d, Some BadNumber)
      | Some n =>
          match unit_duration u with
          | Some dur => (wrap64 (n * dur), None)
          | None => (d, Some (BadUnit u))
          end
      end
  end.

End UnmarshalText.

End BucketInterval.

(** ** What [validate] asks for *)

(** A bucket of the configuration that is there with its two fields. *)
Definition bucket_ok (b : option bucketJSON) : Prop :=
  ∃ iv n, b = Some {| Interval := Some iv; Size := Some n |}.

(** A profile that is there with a [Subvolume] and complete buckets. *)
Definition profile_ok (p : option profileJSON) : Prop :=
  ∃ q, p = Some q ∧ is_Some (Subvolume q) ∧ Forall bucket_ok (Buckets q).

(** ** [app.prune] and [app.btrfsCmd] (main.go) *)

(** What a run does to the file system: a [btrfs] command with its
    arguments, or [os.Remove] of a path. *)
Inductive action : Type :=
  | Btrfs (args : list string)
  | Remove (name : string).

Section Prune.

(** [findSnaps(dir)], [path.Join], whether [os.Stat] of a path gives an
    error that [os.IsNotExist] accepts, what [cmd.Run] of a [btrfs]
    command gives as [btrfsCmd] reports it, what [os.Remove] gives, and
    the option [--dry-run]. *)
Variable findSnaps : string → result (list snap).
Variable Join : string → string → string.
Variable IsNotExist : string → bool.
Variable Run : list string → option error.
Variable os_Remove : string → option error.
Variable dryRun : bool.

(** [a.btrfsCmd(args...)]: the commands it runs and its error. *)
Definition btrfsCmd (args : list string) : list action * option error :=
  if dryRun then ([], None) else ([Btrfs args], Run args).

(** The loop [for _, s := range out] of [app.prune]. *)
Fixpoint prune_loop (out : list snap) : list action * result unit :=
  match out with
  | [] => ([], Ok ())
  | s :: out' =>
      let snapPath := Join (path s) "snapshot" in
      let '(done1, err1) :=
        if IsNotExist snapPath then ([], None)
        else btrfsCmd ["subvolume"; "delete"; snapPath] in
      match err1 with
      | Some e => (done1, Err e)
      | None =>
          let '(done2, err2) :=
            if dryRun then ([], None)
            else ([Remove (path s)], os_Remove (path s)) in
          match err2 with
          | Some e => (done1 ++ done2, Err e)
          | None =>
              let '(rest, r) := prune_loop out' in
              (done1 ++ done2 ++ rest, r)
          end
      end
  end.

(** [a.prune(p)]: the cascade after it, what it did, and its result. *)
Definition prune (c : cascade) (p : profileJSON)
  : cascade * list action * result unit :=
  match Storage p with
  | None => (c, [], Panic)
  | Some dir =>
      match findSnaps dir with
      | Ok snaps =>
          let '(c', out) := insert c snaps in
          let '(acts, r) := prune_loop out in
          (c', acts, r)
      | Err e => (c, [], Err e)
      | Panic => (c, [], Panic)
      end
  end.

End Prune.



(** ** [escapedArgs] (main.go) *)

(** The characters that the [switch] of [escapedArgs] lets through: a
    byte that is not one of them, or that is part of a character outside
    ASCII, makes the argument quoted. *)
Definition safe_byte (ch : Ascii.ascii) : bool :=
  let n := Ascii.N_of_ascii ch in
  ((n =? 45) || (n =? 46) || (n =? 47) || (n =? 64) || (n =? 95)
   || ((48 <=? n) && (n <=? 57))
   || ((65 <=? n) && (n <=? 90))
   || ((97 <=? n) && (n <=? 122)))%N.

Fixpoint needs_quote (a : string) : bool :=
  match a with
  | EmptyString => false
  | String ch a' => negb (safe_byte ch) || needs_quote a'
  end.

Section EscapedArgs.

(** [fmt.Sprintf("%q", a)]. *)
Variable Quote : string → string.

Definition escape (a : string) : string :=
  if needs_quote a then Quote a else a.

(** [escapedArgs(args, max)]. *)
Definition escapedArgs (args : list string) (max : Z) : list string :=
  let maxArgs :=
    if (0 <? max) && (max <? Z.of_nat (length args)) then
      match args with
      | a0 :: _ => [a0; "..."] ++ drop (length args - Z.to_nat max) args
      | [] => args
      end
    else args in
  escape <$> maxArgs.

End EscapedArgs.

(** ** [fileBackup.Less] (main.go) *)

Module FileBackup.

Record t := FileBackup {
  Name : string;
  Dir : string;
  Size : Z;
  ModTime : Z;
  Mode : Z
}.

(** [a.Less(b)]; [<] on Go strings compares them byte by byte. *)
Definition Less (a b : t) : bool :=
  if decide (Name a = Name b) then Time.Before (ModTime a) (ModTime b)
  else String.ltb (Name a) (Name b).

End FileBackup.

(** * Properties *)

(** ** The range loop and the shared backing array *)

Lemma visit_erase sh iv i s st :
  erase (visit sh iv i s st) = visit false iv i s (erase st).
Proof.
  unfold visit, rejects, append_overflow, erase; simpl.
  destruct (_ || _); [done|].
  by destruct (ts_arr st !! ts_insertAt st) as [[t|]|].
Qed.

Lemma visit_cells sh iv i s st :
  (length (ts_overflow st) ≤ i)%nat →
  drop (S i) (ts_in (visit sh iv i s st)) = drop (S i) (ts_in st)
  ∧ (length (ts_overflow (visit sh iv i s st)) ≤ S i)%nat.
Proof.
  intros Hov. unfold visit, append_overflow.
  destruct (rejects iv i s st); simpl; [split; [done|lia]|].
  destruct (ts_arr st !! ts_insertAt st) as [[t|]|]; simpl;
    try (split; [done|lia]).
  split; [|rewrite length_app; simpl; lia].
  destruct sh; [|done]. apply drop_insert_lt. lia.
Qed.

Lemma range_loop_fold sh iv n : ∀ i st l,
  drop i (ts_in st) = l → length l = n →
  (length (ts_overflow st) ≤ i)%nat →
  erase (range_loop sh iv n i st) = tier_fold iv i l (erase st).
Proof.
  induction n as [|n IH]; intros i st l Hl Hn Hov.
  - by destruct l.
  - destruct l as [|s l']; [done|]. simpl in *.
    assert (ts_in st !! i = Some s) as ->.
    { pose proof (lookup_drop (ts_in st) i 0) as H.
      rewrite Hl, Nat.add_0_r in H. done. }
    destruct (visit_cells sh iv i s st Hov) as [Hd Hov'].
    rewrite (IH (S i) _ l'), ?visit_erase; [done| |congruence|done].
    rewrite Hd. replace (S i) with (i + 1)%nat by lia.
    by rewrite <-drop_drop, Hl.
Qed.

Lemma insert_bucket_fold sh b inp out :
  insert_bucket sh b inp out =
  let st := tier_fold (interval b) 0 inp (erase (tier_init b inp out)) in
  ({| interval := interval b; snaps_arr := ts_arr st; snaps_len := ts_len st |},
   ts_out st, ts_overflow st).
Proof.
  unfold insert_bucket. simpl.
  rewrite <-(range_loop_fold sh (interval b) (length inp) 0 (tier_init b inp out) inp);
    [done..|simpl; lia].
Qed.

(** ** The ring as a queue *)

Lemma ring_view_perm at_ arr : ring_view at_ arr ≡ₚ arr.
Proof.
  unfold ring_view. rewrite (comm (++)). by rewrite take_drop.
Qed.

Lemma ring_view_head at_ arr x :
  arr !! at_ = Some x →
  ring_view at_ arr = x :: drop (S at_) arr ++ take at_ arr.
Proof.
  intros H. unfold ring_view. by rewrite (drop_S _ _ _ H).
Qed.

Lemma ring_view_push at_ arr y :
  (at_ < length arr)%nat →
  ring_view ((at_ + 1) `mod` length arr) (<[at_ := y]> arr)
  = drop (S at_) arr ++ take at_ arr ++ [y].
Proof.
  intros Hlt. unfold ring_view.
  assert (<[at_ := y]> arr !! at_ = Some y) as Hy
    by by apply list_lookup_insert_eq.
  destruct (decide (at_ + 1 = length arr)%nat) as [He|Hne].
  - rewrite He, Nat.Div0.mod_same. simpl. rewrite app_nil_r.
    rewrite (drop_ge arr (S at_)) by lia. simpl.
    rewrite insert_take_drop by done.
    rewrite (drop_ge arr (S at_)) by lia. done.
  - rewrite Nat.mod_small by lia.
    replace (at_ + 1)%nat with (S at_) by lia.
    rewrite drop_insert_lt by lia.
    rewrite (take_S_r _ _ _ Hy), take_insert_ge by lia. done.
Qed.

Lemma visit_reject sh iv i s st :
  rejects iv i s st = true →
  visit sh iv i s st =
  {| ts_in := ts_in st; ts_arr := ts_arr st; ts_len := ts_len st;
     ts_insertAt := ts_insertAt st; ts_prevCreated := ts_prevCreated st;
     ts_out := ts_out st ++ [s]; ts_overflow := ts_overflow st |}.
Proof. intros H. unfold visit. by rewrite H. Qed.

Lemma rejects_false_cap iv i s st :
  rejects iv i s st = false → length (ts_arr st) ≠ 0%nat.
Proof.
  unfold rejects. intros [_ H]%orb_false_iff.
  by apply bool_decide_eq_false in H.
Qed.

Lemma visit_accept sh iv i s st :
  rejects iv i s st = false → index_ok st →
  let st' := visit sh iv i s st in
  accepted st' = accepted st ++ [s]
  ∧ ts_out st' = ts_out st
  ∧ ts_prevCreated st' = created s
  ∧ length (ts_arr st') = length (ts_arr st)
  ∧ index_ok st'.
Proof.
  intros Hrej Hok. pose proof (rejects_false_cap _ _ _ _ Hrej) as Hcap.
  destruct Hok as [?|Hlt]; [done|].
  unfold visit. rewrite Hrej. unfold accepted, index_ok. simpl.
  destruct (lookup_lt_is_Some_2 _ _ Hlt) as [x Hx]. rewrite Hx.
  rewrite length_insert, ring_view_push, (ring_view_head _ _ _ Hx) by done.
  destruct x as [t|]; simpl.
  - change (omap id (Some t :: ?l)) with (t :: omap id l).
    rewrite !omap_app. simpl. split_and!; try done.
    + rewrite <-!(assoc (++)). simpl. by rewrite <-!(assoc (++)).
    + right. by apply Nat.mod_upper_bound.
  - change (omap id (None :: ?l)) with (omap id l).
    rewrite !omap_app. simpl. split_and!; try done.
    + by rewrite <-!(assoc (++)).
    + right. by apply Nat.mod_upper_bound.
Qed.

Lemma accepted_perm st :
  accepted st ≡ₚ omap id (ts_arr st) ++ ts_overflow st.
Proof.
  unfold accepted. rewrite ring_view_perm. apply (comm (++)).
Qed.

(** ** Nothing is lost and nothing is made up *)

Lemma visit_content sh iv i s st :
  index_ok st →
  let st' := visit sh iv i s st in
  index_ok st'
  ∧ length (ts_arr st') = length (ts_arr st)
  ∧ accepted st' ++ ts_out st' ≡ₚ accepted st ++ ts_out st ++ [s].
Proof.
  intros Hok. destruct (rejects iv i s st) eqn:Hrej; simpl.
  - rewrite (visit_reject _ _ _ _ _ Hrej). by unfold accepted, index_ok.
  - destruct (visit_accept sh iv i s st Hrej Hok) as (Ha & Ho & _ & Hl & Hok').
    split_and!; [done..|]. rewrite Ha, Ho, <-!(assoc (++)).
    apply Permutation_app_head, (comm (++)).
Qed.

Lemma tier_fold_content iv l : ∀ i st,
  index_ok st →
  let st' := tier_fold iv i l st in
  index_ok st'
  ∧ length (ts_arr st') = length (ts_arr st)
  ∧ accepted st' ++ ts_out st' ≡ₚ accepted st ++ ts_out st ++ l.
Proof.
  induction l as [|s l IH]; intros i st Hok; simpl.
  - by rewrite app_nil_r.
  - destruct (visit_content false iv i s st Hok) as (Hok' & Hl & Hp).
    destruct (IH (S i) _ Hok') as (H1 & H2 & H3).
    split_and!; [done|congruence|].
    rewrite H3, (assoc (++) (accepted _)), Hp, <-!(assoc (++)). done.
Qed.

Lemma index_ok_init b inp out : index_ok (erase (tier_init b inp out)).
Proof. unfold index_ok. simpl. lia. Qed.

Lemma insert_bucket_content sh b inp out :
  let '(b', out', ov) := insert_bucket sh b inp out in
  interval b' = interval b ∧ cap b' = cap b
  ∧ bucket_kept b' ++ out' ++ ov ≡ₚ bucket_kept b ++ out ++ inp.
Proof.
  rewrite insert_bucket_fold. simpl.
  destruct (tier_fold_content (interval b) inp 0 _ (index_ok_init b inp out))
    as (_ & Hl & Hp).
  split_and!; [done|done|]. unfold bucket_kept. simpl.
  rewrite !accepted_perm in Hp. simpl in Hp. rewrite app_nil_r in Hp.
  rewrite <-Hp. rewrite <-!(assoc (++)).
  apply Permutation_app_head, (comm (++)).
Qed.

Lemma insert_buckets_content c : ∀ sh inp out,
  let '(c', res) := insert_buckets sh c inp out in
  Forall2 (λ b b', interval b' = interval b ∧ cap b' = cap b) c c'
  ∧ kept c' ++ res ≡ₚ kept c ++ out ++ inp.
Proof.
  induction c as [|b c IH]; intros sh inp out; cbn [insert_buckets].
  - split; [constructor|done].
  - pose proof (insert_bucket_content sh b inp out) as Hb.
    destruct (insert_bucket sh b inp out) as [[b' out'] ov].
    specialize (IH true ov out').
    destruct (insert_buckets true c ov out') as [c' res].
    destruct Hb as (Hi & Hc & Hp), IH as [HF IH].
    split; [by constructor|].
    change (kept (b' :: c')) with (bucket_kept b' ++ kept c').
    change (kept (b :: c)) with (bucket_kept b ++ kept c).
    rewrite <-(assoc (++) (bucket_kept b')), IH.
    rewrite (assoc (++) (bucket_kept b')), (comm (++) (bucket_kept b')).
    rewrite <-(assoc (++) (kept c)), Hp. solve_Permutation.
Qed.

(** ** Spacing of what a bucket keeps *)

Lemma Sub_le t u : u <= t → Time.Sub t u <= t - u.
Proof. unfold Time.Sub, Time.minDuration, Time.maxDuration. lia. Qed.

Lemma rejects_false_gap iv i s st :
  rejects iv i s st = false → i ≠ 0%nat →
  iv <= Time.Sub (created s) (ts_prevCreated st).
Proof.
  unfold rejects. intros [H _]%orb_false_iff Hi.
  apply andb_false_iff in H as [H|H].
  - apply bool_decide_eq_false in H. lia.
  - by apply Z.ltb_ge in H.
Qed.

Lemma visit_inv iv i s l st :
  tier_inv iv i (s :: l) st → tier_inv iv (S i) l (visit false iv i s st).
Proof.
  intros (Hok & Hfirst & Hch & Hprev & Hrest & Hsort).
  apply StronglySorted_cons in Hsort as [Hs Hsort].
  rewrite Forall_forall in Hs.
  destruct (rejects iv i s st) eqn:Hrej.
  - rewrite (visit_reject _ _ _ _ _ Hrej).
    unfold tier_inv, accepted, index_ok in *; simpl.
    split_and!; [done|done|done|done| |done].
    intros Hne x Hx. apply Hrest; [done|by right].
  - destruct (visit_accept false iv i s st Hrej Hok)
      as (Ha & Ho & Hp & Hl & Hok').
    assert (∀ r, r ∈ accepted st → spaced iv r s) as Hsp.
    { intros r Hr.
      assert (accepted st ≠ []) as Hne by (intros E; rewrite E in Hr; inv Hr).
      assert (i ≠ 0%nat) as Hi by (intros E; by apply Hne, Hfirst).
      pose proof (rejects_false_gap _ _ _ _ Hrej Hi) as Hgap.
      pose proof (Hrest Hne s (list_elem_of_here _ _)) as Hps.
      pose proof (Sub_le _ _ Hps). pose proof (Hprev r Hr).
      unfold spaced. lia. }
    unfold tier_inv. rewrite Ha, Hp. split_and!; [done|done| | | |done].
    + apply StronglySorted_app_2; [|done|repeat constructor].
      intros x1 x2 H1 ->%list_elem_of_singleton. by apply Hsp.
    + intros r [Hr| ->%list_elem_of_singleton]%elem_of_app; [|lia].
      by destruct (Hsp r Hr).
    + intros _ x Hx. by apply Hs.
Qed.

Lemma tier_fold_inv iv l : ∀ i st,
  tier_inv iv i l st → tier_inv iv (i + length l) [] (tier_fold iv i l st).
Proof.
  induction l as [|s l IH]; intros i st Hinv; simpl.
  - by rewrite Nat.add_0_r.
  - replace (i + S (length l))%nat with (S i + length l)%nat by lia.
    by apply IH, visit_inv.
Qed.

Lemma tier_inv_init b inp out :
  fresh_bucket b → StronglySorted created_le inp →
  tier_inv (interval b) 0 inp (erase (tier_init b inp out)).
Proof.
  intros [Harr _] Hs.
  assert (accepted (erase (tier_init b inp out)) = []) as Hacc.
  { unfold accepted, ring_view. simpl. rewrite Harr.
    generalize (cap b). by induction n. }
  unfold tier_inv. rewrite Hacc.
  split_and!; [apply index_ok_init|done|constructor| | |done].
  - by intros r ?%elem_of_nil.
  - done.
Qed.

Global Instance created_le_trans : Transitive created_le.
Proof. unfold created_le. intros x y z. lia. Qed.

Global Instance created_le_total : Total created_le.
Proof. unfold created_le. intros x y. lia. Qed.

Global Instance apart_sym iv : Symmetric (apart iv).
Proof. unfold apart. intros x y. lia. Qed.

Lemma spaced_apart iv s t : spaced iv s t → apart iv s t.
Proof. unfold spaced, apart. lia. Qed.

Lemma spaced_created_le iv s t : spaced iv s t → created_le s t.
Proof. by intros [? _]. Qed.

Lemma StronglySorted_weaken {A} (R R' : relation A) l :
  (∀ x y, R x y → R' x y) → StronglySorted R l → StronglySorted R' l.
Proof.
  intros HR. induction 1 as [|x l _ IH Hx]; constructor; [done|].
  eapply Forall_impl; [done|]. auto.
Qed.

(** For a symmetric relation, [StronglySorted] says that the elements are
    related two by two, in whatever order they are listed. *)
Lemma pairwise_Permutation {A} (R : relation A) `{!Symmetric R} l l' :
  l ≡ₚ l' → StronglySorted R l → StronglySorted R l'.
Proof.
  induction 1 as [|x l l' Hp IH|x y l|l1 l2 l3 _ IH1 _ IH2]; intros Hl.
  - done.
  - apply StronglySorted_cons in Hl as [Hx Hl].
    constructor; [by apply IH|by rewrite <-Hp].
  - apply StronglySorted_cons in Hl as [Hy Hl].
    apply StronglySorted_cons in Hl as [Hx Hl].
    apply Forall_cons in Hy as [Hyx Hy].
    repeat constructor; [done|done|by symmetry|done].
  - auto.
Qed.

Lemma pairwise_lookup {A} (R : relation A) `{!Symmetric R} l :
  StronglySorted R l →
  ∀ p q x y, p ≠ q → l !! p = Some x → l !! q = Some y → R x y.
Proof.
  induction 1 as [|z l _ IH Hz]; intros p q x y Hpq Hp Hq; [done|].
  rewrite Forall_forall in Hz.
  destruct p as [|p], q as [|q]; simpl in *; simplify_eq.
  - apply Hz. by eapply list_elem_of_lookup_2.
  - symmetry. apply Hz. by eapply list_elem_of_lookup_2.
  - eapply (IH p q); [congruence|done..].
Qed.

Lemma insert_bucket_spaced sh b inp out :
  fresh_bucket b → StronglySorted created_le inp →
  let '(b', out', ov) := insert_bucket sh b inp out in
  StronglySorted (apart (interval b)) (bucket_kept b')
  ∧ StronglySorted created_le ov.
Proof.
  intros Hb Hs. rewrite insert_bucket_fold. simpl.
  destruct (tier_fold_inv _ _ _ _ (tier_inv_init b inp out Hb Hs))
    as (_ & _ & Hch & _).
  unfold accepted in Hch. apply StronglySorted_app in Hch as (_ & Hov & Hr).
  split.
  - unfold bucket_kept. simpl.
    apply (StronglySorted_weaken _ _ _ (spaced_apart _)) in Hr.
    revert Hr. apply pairwise_Permutation; [apply _|].
    by rewrite ring_view_perm.
  - eapply StronglySorted_weaken; [apply spaced_created_le|done].
Qed.

Lemma insert_buckets_spaced c : ∀ sh inp out,
  Forall fresh_bucket c → StronglySorted created_le inp →
  Forall (λ b', StronglySorted (apart (interval b')) (bucket_kept b'))
    (insert_buckets sh c inp out).1.
Proof.
  induction c as [|b c IH]; intros sh inp out Hc Hs; cbn [insert_buckets].
  - constructor.
  - apply Forall_cons in Hc as [Hb Hc].
    pose proof (insert_bucket_spaced sh b inp out Hb Hs) as Hsp.
    pose proof (insert_bucket_content sh b inp out) as Hct.
    destruct (insert_bucket sh b inp out) as [[b' out'] ov].
    destruct Hsp as [Hk Hov], Hct as (Hi & _).
    specialize (IH true ov out' Hc Hov).
    destruct (insert_buckets true c ov out') as [c' res]. simpl in *.
    constructor; [by rewrite Hi|done].
Qed.

(** ** Sorting *)

Lemma sortSlice_Permutation l : sortSlice l ≡ₚ l.
Proof. apply merge_sort_Permutation. Qed.

Lemma sortSlice_sorted l : StronglySorted created_le (sortSlice l).
Proof. apply (StronglySorted_merge_sort created_le). Qed.

(** With distinct timestamps there is one sorted order only. *)
Lemma sortSlice_unique l l' :
  NoDup (created <$> l) → l' ≡ₚ l → StronglySorted created_le l' →
  sortSlice l = l'.
Proof.
  intros Hnd Hp Hs.
  apply (StronglySorted_unique_strong created_le);
    [|apply sortSlice_sorted|done|by rewrite sortSlice_Permutation].
  intros x y Hx Hy Hxy Hyx. rewrite sortSlice_Permutation in Hx.
  rewrite Hp in Hy. unfold created_le in *.
  assert (created x = created y) as Heq by lia.
  apply list_elem_of_lookup in Hx as [i Hi], Hy as [j Hj].
  assert (i = j) as ->; [|congruence].
  eapply (NoDup_lookup _ _ _ (created x) Hnd); rewrite list_lookup_fmap.
  - by rewrite Hi.
  - by rewrite Hj, Heq.
Qed.

(** ** Cascades as [addBucket] makes them *)

Lemma make_snaps_Some n arr :
  make_snaps n = Some arr
  ↔ 0 <= n <= 2 ^ 45 ∧ arr = replicate (Z.to_nat n) None.
Proof.
  unfold make_snaps, maxAlloc, PtrSize.
  destruct (Z.ltb_spec n 0) as [H1|H1]; simpl.
  { split; [done|]. intros [? _]. lia. }
  destruct (Z.ltb_spec (2 ^ 48) (8 * n)) as [H2|H2].
  { split; [done|]. intros [? _]. lia. }
  split.
  - intros [= <-]. split; [lia|done].
  - by intros [_ ->].
Qed.

Lemma make_snaps_None n : make_snaps n = None ↔ n < 0 ∨ 2 ^ 45 < n.
Proof.
  unfold make_snaps, maxAlloc, PtrSize.
  destruct (Z.ltb_spec n 0) as [H1|H1]; simpl.
  { split; [by left|done]. }
  destruct (Z.ltb_spec (2 ^ 48) (8 * n)) as [H2|H2].
  { split; [intros _; right; lia|done]. }
  split; [done|lia].
Qed.

Lemma addBucket_Ok c b c' :
  addBucket c b = Ok c' →
  ∃ iv n, b = Some {| Interval := Some iv; Size := Some n |} ∧ 0 <= n
    ∧ c' = c ++ [{| interval := iv;
                    snaps_arr := replicate (Z.to_nat n) None;
                    snaps_len := 0 |}].
Proof.
  unfold addBucket. destruct b as [[[iv|] [n|]]|]; try done.
  destruct (make_snaps n) as [arr|] eqn:Hn; [|done]. intros [= <-].
  apply make_snaps_Some in Hn as [Hn ->].
  exists iv, n. split_and!; [done|lia|done].
Qed.

Lemma fresh_bucket_new iv n :
  fresh_bucket {| interval := iv; snaps_arr := replicate n None;
                  snaps_len := 0 |}.
Proof. unfold fresh_bucket, cap. simpl. by rewrite length_replicate. Qed.

Lemma addBuckets_fresh bs : ∀ c c',
  addBuckets c bs = Ok c' → Forall fresh_bucket c → Forall fresh_bucket c'.
Proof.
  induction bs as [|b bs IH]; intros c c' H Hc; simpl in H.
  - by injection H as <-.
  - destruct (addBucket c b) as [c1| |] eqn:Hb; try done.
    apply addBucket_Ok in Hb as (iv & n & _ & _ & ->).
    apply (IH _ _ H), Forall_app. split; [done|].
    repeat constructor. apply fresh_bucket_new.
Qed.

Lemma fresh_bucket_kept b : fresh_bucket b → bucket_kept b = [].
Proof.
  intros [H _]. unfold bucket_kept. rewrite H.
  generalize (cap b). by induction n.
Qed.

Lemma fresh_kept c : Forall fresh_bucket c → kept c = [].
Proof.
  induction 1 as [|b c Hb _ IH]; [done|].
  change (kept (b :: c)) with (bucket_kept b ++ kept c).
  by rewrite IH, fresh_bucket_kept.
Qed.

(** ** The claims on [insert] *)

Lemma insert_content c inp :
  Forall2 (λ b b', interval b' = interval b ∧ cap b' = cap b) c (insert c inp).1
  ∧ kept (insert c inp).1 ++ (insert c inp).2 ≡ₚ kept c ++ inp.
Proof.
  unfold insert.
  pose proof (insert_buckets_content c false (sortSlice inp) []) as H.
  destruct (insert_buckets false c (sortSlice inp) []) as [c' res].
  destruct H as [HF Hp]. split; [done|]. simpl.
  by rewrite Hp, sortSlice_Permutation.
Qed.

(** C2.  A cascade that [addBucket] has just built keeps or evicts each
    snapshot it is given, once: the kept snapshots and the evicted ones,
    taken together, are the input up to order, so each input snapshot is
    kept or evicted, nothing else is, and an input without repetition gives
    no snapshot twice. *)
Theorem insert_partitions_input bs c inp :
  addBuckets newCascade bs = Ok c →
  kept (insert c inp).1 ++ (insert c inp).2 ≡ₚ inp
  ∧ (∀ s, s ∈ inp ↔ s ∈ kept (insert c inp).1 ∨ s ∈ (insert c inp).2)
  ∧ (NoDup inp → NoDup (kept (insert c inp).1 ++ (insert c inp).2)).
Proof.
  intros Hc.
  assert (kept (insert c inp).1 ++ (insert c inp).2 ≡ₚ inp) as Hp.
  { destruct (insert_content c inp) as [_ ->].
    rewrite fresh_kept; [done|].
    by apply (addBuckets_fresh _ _ _ Hc). }
  split_and!; [done| |].
  - intros s. rewrite <-elem_of_app.
    split; intros H; [by rewrite Hp|by rewrite Hp in H].
  - intros Hnd. by rewrite Hp.
Qed.

Lemma insert_partitions_input_witness :
  let c := [{| interval := Time.Hour; snaps_arr := [None; None];
               snaps_len := 0 |}] in
  let inp := at_minute <$> [0; 30; 65; 125] in
  addBuckets newCascade [tier Time.Hour 2] = Ok c
  ∧ kept (insert c inp).1 ++ (insert c inp).2 ≡ₚ inp.
Proof.
  split; [reflexivity|].
  apply (insert_partitions_input [tier Time.Hour 2]). reflexivity.
Defined.

Lemma addBuckets_Ok bs : ∀ c0 c,
  addBuckets c0 bs = Ok c →
  ∃ c1, c = c0 ++ c1
    ∧ Forall fresh_bucket c1
    ∧ Forall2 (λ b b0, ∃ iv n, b = tier iv n ∧ 0 <= n <= 2 ^ 45
                         ∧ interval b0 = iv ∧ cap b0 = Z.to_nat n) bs c1.
Proof.
  induction bs as [|b bs IH]; intros c0 c H; simpl in H.
  - injection H as <-. exists []. by rewrite app_nil_r.
  - destruct b as [[[iv|] [n|]]|]; try done. simpl in H.
    destruct (make_snaps n) as [arr|] eqn:Hn; [|done].
    apply make_snaps_Some in Hn as [Hn ->].
    apply IH in H as (c1 & -> & Hf & HF).
    eexists (_ :: c1). rewrite <-(assoc (++)). split_and!; [done| |].
    + constructor; [apply fresh_bucket_new|done].
    + constructor; [|done]. exists iv, n. unfold cap. simpl.
      by rewrite length_replicate.
Qed.

Lemma Forall2_chain {A B} (P : A → B → Prop) (Q : B → B → Prop)
    (R : B → Prop) (S : A → B → Prop) l1 : ∀ l2 l3,
  (∀ x y z, P x y → Q y z → R z → S x z) →
  Forall2 P l1 l2 → Forall2 Q l2 l3 → Forall R l3 → Forall2 S l1 l3.
Proof.
  induction l1 as [|x l1 IH]; intros l2 l3 HS HP HQ HR.
  - inv HP. inv HQ. constructor.
  - inv HP. inv HQ. inv HR. constructor; eauto.
Qed.

Lemma omap_length_le {A B} (f : A → option B) l :
  (length (omap f l) ≤ length l)%nat.
Proof.
  induction l as [|x l IH]; [done|].
  change (omap f (x :: l)) with
    (match f x with Some y => y :: omap f l | None => omap f l end).
  destruct (f x); simpl; lia.
Qed.

Lemma bucket_kept_length b : (length (bucket_kept b) ≤ cap b)%nat.
Proof. apply omap_length_le. Qed.

Lemma insert_spaced c inp :
  Forall fresh_bucket c →
  Forall (λ b', StronglySorted (apart (interval b')) (bucket_kept b'))
    (insert c inp).1.
Proof. intros Hc. by apply insert_buckets_spaced, sortSlice_sorted. Qed.

(** [sort.Slice] may leave snapshots with equal timestamps in any order.
    Whatever sorted order of the input the buckets are given, they keep or
    evict each snapshot once, and what a bucket keeps is spaced by its
    interval. *)
Lemma insert_buckets_any_sorted_order c inp sorted :
  Forall fresh_bucket c → sorted ≡ₚ inp → StronglySorted created_le sorted →
  kept (insert_buckets false c sorted []).1
    ++ (insert_buckets false c sorted []).2 ≡ₚ inp
  ∧ Forall (λ b', StronglySorted (apart (interval b')) (bucket_kept b'))
      (insert_buckets false c sorted []).1.
Proof.
  intros Hc Hp Hs. split; [|by apply insert_buckets_spaced].
  pose proof (insert_buckets_content c false sorted []) as H.
  destruct (insert_buckets false c sorted []) as [c' res].
  destruct H as [_ H]. simpl. by rewrite H, fresh_kept, Hp.
Qed.

(** C5.  For every cascade that [addBucket] builds from a list of tiers,
    and so for every list of tiers of positive capacity that it builds:
    after [insert] each bucket has the interval and the capacity of its
    tier, keeps no more snapshots than that capacity, and any two snapshots
    it keeps are at least its interval apart. *)
Theorem insert_capacity_and_spacing bs c inp :
  addBuckets newCascade bs = Ok c →
  Forall2
    (λ b b', ∃ iv n, b = tier iv n
       ∧ interval b' = iv ∧ cap b' = Z.to_nat n
       ∧ (length (bucket_kept b') ≤ Z.to_nat n)%nat
       ∧ ∀ p q s t, p ≠ q →
           bucket_kept b' !! p = Some s → bucket_kept b' !! q = Some t →
           iv <= Z.abs (created s - created t))
    bs (insert c inp).1.
Proof.
  intros Hc.
  destruct (addBuckets_Ok bs newCascade c Hc) as (c1 & -> & Hf & HF).
  simpl. destruct (insert_content c1 inp) as [HF' _].
  eapply Forall2_chain; [|done|done|by apply insert_spaced].
  intros b b0 b' (iv & n & -> & _ & <- & Hcap) [Hi Hc'] Hsp.
  exists (interval b0), n. rewrite <-Hcap, <-Hc'.
  split_and!; [done|done|done|apply bucket_kept_length|].
  rewrite Hi in Hsp. intros p q s t Hpq Hp Hq.
  by apply (pairwise_lookup _ _ Hsp p q).
Qed.

Lemma insert_capacity_and_spacing_witness :
  let c := [{| interval := Time.Hour; snaps_arr := [None; None];
               snaps_len := 0 |}] in
  addBuckets newCascade [tier Time.Hour 2] = Ok c
  ∧ Forall2
      (λ b b', ∃ iv n, b = tier iv n
         ∧ interval b' = iv ∧ cap b' = Z.to_nat n
         ∧ (length (bucket_kept b') ≤ Z.to_nat n)%nat
         ∧ ∀ p q s t, p ≠ q →
             bucket_kept b' !! p = Some s → bucket_kept b' !! q = Some t →
             iv <= Z.abs (created s - created t))
      [tier Time.Hour 2]
      (insert c (at_minute <$> [0; 30; 65; 125])).1.
Proof.
  split; [reflexivity|].
  exact (insert_capacity_and_spacing [tier Time.Hour 2] _
           (at_minute <$> [0; 30; 65; 125]) eq_refl).
Defined.

Lemma visit_keep sh iv i s st :
  rejects iv i s st = false →
  visit sh iv i s st =
  let st1 := match ts_arr st !! ts_insertAt st with
             | Some (Some t) => append_overflow sh t st
             | _ => st
             end in
  {| ts_in := ts_in st1;
     ts_arr := <[ts_insertAt st := Some s]> (ts_arr st);
     ts_len := (ts_insertAt st + 1)%nat;
     ts_insertAt := ((ts_insertAt st + 1) `mod` length (ts_arr st))%nat;
     ts_prevCreated := created s;
     ts_out := ts_out st1;
     ts_overflow := ts_overflow st1 |}.
Proof. intros H. unfold visit. by rewrite H. Qed.

Lemma rejects_first iv s st :
  length (ts_arr st) ≠ 0%nat → rejects iv 0 s st = false.
Proof.
  intros H. unfold rejects. simpl. by apply bool_decide_eq_false.
Qed.

Lemma rejects_near iv i s st :
  i ≠ 0%nat → ts_prevCreated st <= created s →
  created s - ts_prevCreated st < iv →
  rejects iv i s st = true.
Proof.
  intros Hi Hle Hlt. unfold rejects. apply orb_true_iff. left.
  apply andb_true_iff. split; [apply bool_decide_eq_true; lia|].
  apply Z.ltb_lt. pose proof (Sub_le _ _ Hle). lia.
Qed.

Lemma rejects_far iv i s st :
  length (ts_arr st) ≠ 0%nat →
  iv <= created s - ts_prevCreated st → iv <= Time.maxDuration →
  rejects iv i s st = false.
Proof.
  intros Hc Hge Hiv. unfold rejects. apply orb_false_iff.
  split; [|by apply bool_decide_eq_false].
  apply andb_false_iff. right. apply Z.ltb_ge.
  unfold Time.Sub, Time.minDuration, Time.maxDuration in *. lia.
Qed.

(** Goals on timestamps, once the units are numbers. *)
Ltac time_lia :=
  cbn; unfold Time.Hour, Time.Minute, Time.Second, Time.maxDuration; lia.

(** C7.  One tier of one hour and two slots, and snapshots made 0, 30, 65
    and 125 minutes after any moment [t0]: the bucket keeps those of
    minutes 65 and 125, and the snapshots of minutes 0 and 30 are evicted. *)
Theorem scenario_one_hour_two_slots t0 p0 q0 p1 q1 p2 q2 p3 q3 :
  let s0 := Snap p0 q0 (t0 + 0 * Time.Minute) in
  let s30 := Snap p1 q1 (t0 + 30 * Time.Minute) in
  let s65 := Snap p2 q2 (t0 + 65 * Time.Minute) in
  let s125 := Snap p3 q3 (t0 + 125 * Time.Minute) in
  let c := [{| interval := Time.Hour; snaps_arr := [None; None];
               snaps_len := 0 |}] in
  addBuckets newCascade [tier Time.Hour 2] = Ok c
  ∧ kept (insert c [s0; s30; s65; s125]).1 ≡ₚ [s65; s125]
  ∧ (insert c [s0; s30; s65; s125]).2 ≡ₚ [s0; s30].
Proof.
  intros s0 s30 s65 s125 c. split; [reflexivity|].
  assert (insert c [s0; s30; s65; s125]
          = ([{| interval := Time.Hour;
                 snaps_arr := [Some s125; Some s65];
                 snaps_len := 1 |}], [s30; s0])) as ->.
  { unfold insert.
    rewrite (sortSlice_unique _ [s0; s30; s65; s125]); [|  |done|].
    - unfold c. cbn [insert_buckets]. rewrite insert_bucket_fold.
      cbn [tier_fold interval].
      rewrite (visit_keep false _ 0 s0) by by apply rejects_first.
      cbn -[Z.mul Z.add Time.Hour].
      rewrite (visit_reject false _ 1 s30)
        by (apply rejects_near; [done|..]; time_lia).
      cbn -[Z.mul Z.add Time.Hour].
      rewrite (visit_keep false _ 2 s65)
        by (apply rejects_far; [done|..]; time_lia).
      cbn -[Z.mul Z.add Time.Hour].
      rewrite (visit_keep false _ 3 s125)
        by (apply rejects_far; [done|..]; time_lia).
      reflexivity.
    - cbn. repeat (apply NoDup_cons_2;
        [rewrite ?elem_of_cons, elem_of_nil; time_lia|]). apply NoDup_nil_2.
    - repeat constructor; unfold created_le; time_lia. }
  split; [apply Permutation_swap|apply Permutation_swap].
Qed.

(** ** What a bucket rejects *)

Lemma rejects_spec iv i s st :
  rejects iv i s st = true ↔
  length (ts_arr st) = 0%nat
  ∨ (0 < i)%nat ∧ Time.Sub (created s) (ts_prevCreated st) < iv.
Proof.
  unfold rejects.
  rewrite orb_true_iff, andb_true_iff, !bool_decide_eq_true, Z.ltb_lt.
  tauto.
Qed.

Lemma visit_out_prefix sh iv i s st :
  ts_out st `prefix_of` ts_out (visit sh iv i s st).
Proof.
  unfold visit, append_overflow.
  destruct (rejects iv i s st); simpl; [by apply prefix_app_r|].
  by destruct (ts_arr st !! ts_insertAt st) as [[t|]|].
Qed.

Lemma range_loop_out_prefix sh iv n : ∀ i st,
  ts_out st `prefix_of` ts_out (range_loop sh iv n i st).
Proof.
  induction n as [|n IH]; intros i st; simpl; [done|].
  destruct (ts_in st !! i) as [s|]; [|done].
  etrans; [apply (visit_out_prefix sh iv i s)|apply IH].
Qed.

Lemma insert_buckets_out_prefix c : ∀ sh inp out,
  out `prefix_of` (insert_buckets sh c inp out).2.
Proof.
  induction c as [|b c IH]; intros sh inp out; cbn [insert_buckets].
  - by apply prefix_app_r.
  - pose proof (range_loop_out_prefix sh (interval b) (length inp) 0
                  (tier_init b inp out)) as Hb.
    unfold insert_bucket.
    specialize (IH true
      (ts_overflow (range_loop sh (interval b) (length inp) 0
                      (tier_init b inp out)))
      (ts_out (range_loop sh (interval b) (length inp) 0
                 (tier_init b inp out)))).
    destruct (insert_buckets true c _ _) as [c' res]. simpl in *.
    by etrans.
Qed.

(** C1 as stated fails: with two buckets of one hour and one slot and
    snapshots of minutes 0 and 30, the first bucket rejects the second
    snapshot; it is not in the input of the second bucket, which is empty,
    and it is evicted although the last bucket was offered nothing and has
    a free slot. *)
Lemma rejected_not_offered_to_next_bucket :
  let b := {| interval := Time.Hour; snaps_arr := [None]; snaps_len := 0 |} in
  let inp := [at_minute 0; at_minute 30] in
  addBuckets newCascade [tier Time.Hour 1; tier Time.Hour 1] = Ok [b; b]
  ∧ insert_bucket false b (sortSlice inp) []
    = ({| interval := Time.Hour; snaps_arr := [Some (at_minute 0)];
          snaps_len := 1 |}, [at_minute 30], [])
  ∧ insert [b; b] inp
    = ([{| interval := Time.Hour; snaps_arr := [Some (at_minute 0)];
           snaps_len := 1 |}; b], [at_minute 30]).
Proof. by vm_compute. Qed.

(** ** [reset] after the ring has gone round *)

(** C3 fails on the code: [reset] clears the cells below the length of
    [b.snaps] only, and [insert] has cut that length when the ring went
    round.  One tier of one hour and two slots, snapshots of minutes 0, 30,
    65 and 125: the first run evicts those of minutes 30 and 0; after
    [reset] the snapshot of minute 65 is still in its cell, and the second
    run evicts it as well. *)
Theorem reset_leaves_cells_of_a_wrapped_ring :
  let c := [{| interval := Time.Hour; snaps_arr := [None; None];
               snaps_len := 0 |}] in
  let inp := at_minute <$> [0; 30; 65; 125] in
  let run1 := insert c inp in
  let run2 := insert (reset run1.1) inp in
  addBuckets newCascade [tier Time.Hour 2] = Ok c
  ∧ run1.2 = [at_minute 30; at_minute 0]
  ∧ kept run1.1 = [at_minute 125; at_minute 65]
  ∧ kept (reset run1.1) = [at_minute 65]
  ∧ run2.2 = [at_minute 30; at_minute 65; at_minute 0]
  ∧ kept run2.1 = [at_minute 125; at_minute 65]
  ∧ ¬ run2.2 ≡ₚ run1.2.
Proof.
  split_and!; try by vm_compute.
  intros H%Permutation_length. vm_compute in H. done.
Qed.

(** ** Buckets of size zero *)

Lemma tier_fold_no_cells iv l : ∀ i st,
  ts_arr st = [] →
  tier_fold iv i l st =
  {| ts_in := ts_in st; ts_arr := ts_arr st; ts_len := ts_len st;
     ts_insertAt := ts_insertAt st; ts_prevCreated := ts_prevCreated st;
     ts_out := ts_out st ++ l; ts_overflow := ts_overflow st |}.
Proof.
  induction l as [|s l IH]; intros i st Harr; simpl.
  - rewrite app_nil_r. by destruct st.
  - rewrite visit_reject.
    + rewrite IH by done. simpl. by rewrite <-(assoc (++)).
    + apply rejects_spec. left. by rewrite Harr.
Qed.

(** A negative size makes [make] panic in [addBucket]. *)
Lemma addBucket_negative c iv n : n < 0 → addBucket c (tier iv n) = Panic.
Proof.
  intros H. simpl. by rewrite (proj2 (make_snaps_None n) (or_introl H)).
Qed.


(** ** Loading the configuration *)

Lemma validate_profiles_Ok ps :
  validate_profiles ps = Ok () →
  ∀ name p, (name, p) ∈ ps → ∃ p', p = Some p' ∧ is_Some (Subvolume p').
Proof.
  induction ps as [|[n p] ps IH]; intros H name q Hin; [by inv Hin|].
  simpl in H.
  destruct (profileJSON_validate p) as [[]| |] eqn:Hp; try done.
  apply elem_of_cons in Hin as [[= -> ->]|Hin]; [|by eapply IH].
  destruct p as [p|]; [|done]. exists p. split; [done|].
  simpl in Hp. by destruct (Subvolume p).
Qed.

(** C10.  When [loadConfig] returns a configuration, every profile of it
    has a [Subvolume]; so a configuration with a profile that has none, as
    a backup profile that names its source in [Backup], is not returned. *)
Theorem loadConfig_needs_Subvolume open decode filename cfg :
  loadConfig open decode filename = Ok cfg →
  (∀ name p, (name, p) ∈ Profiles cfg →
     ∃ p', p = Some p' ∧ is_Some (Subvolume p'))
  ∧ ¬ ∃ name p, (name, Some p) ∈ Profiles cfg ∧ Subvolume p = None.
Proof.
  unfold loadConfig. intros H.
  destruct (open "config.json") as [f|]; [|done].
  destruct (decode f) as [cfg'|]; [|done].
  destruct (configJSON_validate cfg') as [[]| |] eqn:Hv; try done.
  injection H as ->.
  pose proof (validate_profiles_Ok _ Hv) as Hall. split; [done|].
  intros (name & p & Hin & Hnone).
  destruct (Hall _ _ Hin) as (p' & [= <-] & [v Hv']). congruence.
Qed.

Lemma loadConfig_needs_Subvolume_witness :
  let cfg := {| Profiles :=
    [("root", Some {| Subvolume := Some "/"; Storage := Some "/snap/root";
                      Buckets := [tier (2 * Time.Minute) 60];
                      Backup := None |})] |} in
  loadConfig (λ _, Some "{}") (λ _, Some cfg) "/etc/snap/config.json" = Ok cfg
  ∧ ∀ name p, (name, p) ∈ Profiles cfg →
      ∃ p', p = Some p' ∧ is_Some (Subvolume p').
Proof.
  split; [reflexivity|].
  exact (proj1 (loadConfig_needs_Subvolume (λ _, Some "{}")
    (λ _, Some {| Profiles :=
       [("root", Some {| Subvolume := Some "/"; Storage := Some "/snap/root";
                         Buckets := [tier (2 * Time.Minute) 60];
                         Backup := None |})] |})
    "/etc/snap/config.json" _ eq_refl)).
Defined.

(** A profile that has [Backup] and no [Subvolume] makes [loadConfig]
    return the error of [profileJSON.validate]. *)
Example loadConfig_backup_profile :
  let cfg := {| Profiles :=
    [("root", Some {| Subvolume := Some "/"; Storage := Some "/snap/root";
                      Buckets := [tier (2 * Time.Minute) 60];
                      Backup := None |});
     ("root-backup",
      Some {| Subvolume := None; Storage := Some "/mnt/backup/snap/root";
              Buckets := [tier Time.Hour 48]; Backup := Some "root" |})] |} in
  loadConfig (λ _, Some "{}") (λ _, Some cfg) "/etc/snap/config.json"
  = Err (ErrProfile "root-backup" ErrSubvolumeMissing).
Proof. reflexivity. Qed.

(** ** The maps of [app.backup] *)

Lemma by_created_acc_None l : ∀ (m : gmap Z snap) t,
  foldl (λ m s, <[created s := s]> m) m l !! t = None
  ↔ m !! t = None ∧ ∀ e, e ∈ l → created e ≠ t.
Proof.
  induction l as [|x l IH]; intros m t; simpl.
  - split; [|by intros [? _]]. intros H. split; [done|]. by intros e ?%elem_of_nil.
  - rewrite IH, lookup_insert_None. split.
    + intros [[Hm Hx] Hl]. split; [done|].
      intros e [->|He]%elem_of_cons; auto.
    + intros [Hm Hl]. split_and!; [done|apply Hl; by left|].
      intros e He. apply Hl. by right.
Qed.

Lemma by_created_acc_Some l : ∀ (m : gmap Z snap) t s,
  foldl (λ m s, <[created s := s]> m) m l !! t = Some s →
  m !! t = Some s ∨ (s ∈ l ∧ created s = t).
Proof.
  induction l as [|x l IH]; intros m t s H; simpl in *; [by left|].
  apply IH in H as [H|[H1 H2]].
  - apply lookup_insert_Some in H as [[<- <-]|[_ H]]; [|by left].
    right. split; [by left|done].
  - right. split; [by right|done].
Qed.

Lemma by_created_None l t :
  by_created l !! t = None ↔ ∀ e, e ∈ l → created e ≠ t.
Proof.
  unfold by_created. rewrite by_created_acc_None, lookup_empty. tauto.
Qed.

Lemma by_created_Some l t s :
  by_created l !! t = Some s → s ∈ l ∧ created s = t.
Proof.
  unfold by_created. intros H. apply by_created_acc_Some in H as [H|H]; [|done].
  by rewrite lookup_empty in H.
Qed.

Lemma need_of_lookup src dst t s :
  need_of src dst !! t = Some s
  ↔ by_created src !! t = Some s ∧ by_created dst !! t = None.
Proof. unfold need_of. by rewrite map_lookup_filter_Some. Qed.

Lemma values_created_keys (m : gmap Z snap) :
  (∀ t s, m !! t = Some s → created s = t) →
  created <$> (map_to_list m).*2 = (map_to_list m).*1.
Proof.
  intros Hm. rewrite <-list_fmap_compose.
  apply list_fmap_ext. intros i [t s] Hi. simpl.
  apply Hm, elem_of_map_to_list. by eapply list_elem_of_lookup_2.
Qed.

Lemma sorted_values_spec (m : gmap Z snap) :
  (∀ t s, m !! t = Some s → created s = t) →
  StronglySorted created_lt (sortSlice (map_to_list m).*2)
  ∧ ∀ s, s ∈ sortSlice (map_to_list m).*2 ↔ m !! created s = Some s.
Proof.
  intros Hm. split.
  - assert (NoDup (created <$> sortSlice (map_to_list m).*2)) as Hnd.
    { rewrite sortSlice_Permutation. rewrite (values_created_keys m Hm).
      apply NoDup_fst_map_to_list. }
    pose proof (sortSlice_sorted (map_to_list m).*2) as Hs.
    induction Hs as [|x l _ IH Hx]; [constructor|].
    rewrite fmap_cons in Hnd. apply NoDup_cons in Hnd as [Hx' Hnd].
    constructor; [by apply IH|].
    rewrite Forall_forall in Hx |- *. intros y Hy.
    specialize (Hx y Hy). unfold created_le, created_lt in *.
    assert (created x ≠ created y); [|lia].
    intros E. apply Hx'. rewrite E. by apply list_elem_of_fmap_2.
  - intros s. rewrite sortSlice_Permutation, list_elem_of_fmap. split.
    + intros ([t s'] & -> & H%elem_of_map_to_list). simpl.
      by rewrite (Hm _ _ H).
    + intros H. exists (created s, s). split; [done|].
      by apply elem_of_map_to_list.
Qed.

Lemma needS_of_spec src dst :
  StronglySorted created_lt (needS_of src dst)
  ∧ ∀ s, s ∈ needS_of src dst
      ↔ by_created src !! created s = Some s
        ∧ ∀ d, d ∈ dst → created d ≠ created s.
Proof.
  destruct (sorted_values_spec (need_of src dst)) as [Hs Hin].
  { intros t s [H _]%need_of_lookup. by destruct (by_created_Some _ _ _ H). }
  split; [done|]. intros s.
  by rewrite Hin, need_of_lookup, by_created_None.
Qed.

Lemma haveS_of_spec src dst :
  StronglySorted created_lt (haveS_of src dst)
  ∧ ∀ s, s ∈ haveS_of src dst
      ↔ by_created src !! created s = Some s
        ∧ ∃ d, d ∈ dst ∧ created d = created s.
Proof.
  destruct (sorted_values_spec (have_of src dst)) as [Hs Hin].
  { intros t s [H _]%map_lookup_filter_Some.
    by destruct (by_created_Some _ _ _ H). }
  split; [done|]. intros s. rewrite Hin. unfold have_of.
  rewrite map_lookup_filter_Some. simpl. split.
  - intros [H1 [d Hd]]. split; [done|]. exists d.
    by apply by_created_Some in Hd.
  - intros [H1 (d & Hd & Ht)]. split; [done|].
    destruct (by_created dst !! created s) eqn:E; [done|].
    rewrite by_created_None in E. by destruct (E d Hd).
Qed.

Lemma toSend_of_spec c src dst s :
  s ∈ toSend_of c src dst
  ↔ s ∈ needS_of src dst
    ∧ ∀ e, e ∈ (insert c (dst ++ needS_of src dst)).2 →
           created e ≠ created s.
Proof.
  unfold toSend_of, unwanted_of.
  by rewrite list_elem_of_filter, by_created_None, (comm (∧)).
Qed.

(** ** The calls of [backupSingle] *)

Lemma plan_calls_lookup toSend : ∀ haveS i s h,
  plan_calls haveS toSend !! i = Some (s, h)
  ↔ toSend !! i = Some s ∧ h = haveS ++ take i toSend.
Proof.
  induction toSend as [|x l IH]; intros haveS i s h; simpl.
  - rewrite !lookup_nil. split; [done|by intros [? _]].
  - destruct i as [|i]; simpl.
    + rewrite app_nil_r. split; [by intros [= -> ->]|by intros [[= ->] ->]].
    + rewrite IH, <-(assoc (++)). done.
Qed.

Lemma plan_calls_fst toSend : ∀ haveS, (plan_calls haveS toSend).*1 = toSend.
Proof.
  induction toSend as [|x l IH]; intros haveS; simpl; [done|].
  by rewrite IH.
Qed.

Lemma backup_loop_spec pipeline unwanted needS : ∀ haveS,
  let toSend := filter (λ s, unwanted !! created s = None) needS in
  let '(calls, r) := backup_loop pipeline unwanted needS haveS in
  calls `prefix_of` plan_calls haveS toSend
  ∧ (r = Ok ()
     ∧ calls = plan_calls haveS toSend
     ∧ Forall (λ call, backupSingle pipeline call.1 call.2 = None) calls
     ∨ ∃ sent s h e,
         calls = sent ++ [(s, h)]
         ∧ Forall (λ call, backupSingle pipeline call.1 call.2 = None) sent
         ∧ backupSingle pipeline s h = Some e
         ∧ r = Err (ErrCannotBackup (path s) e)).
Proof.
  induction needS as [|s needS IH]; intros haveS; simpl.
  - split; [done|]. left. by split_and!.
  - destruct (decide (is_Some (unwanted !! created s))) as [Hu|Hu].
    + rewrite filter_cons_False; [apply IH|].
      intros E. rewrite E in Hu. by destruct Hu.
    + rewrite filter_cons_True
        by (destruct (unwanted !! created s); [by destruct Hu|done]).
      simpl. destruct (backupSingle pipeline s haveS) as [e|] eqn:Hs.
      * split; [by apply prefix_cons, prefix_nil|].
        right. exists [], s, haveS, e. by split_and!.
      * specialize (IH (haveS ++ [s])). simpl in IH.
        destruct (backup_loop pipeline unwanted needS (haveS ++ [s]))
          as [calls r].
        destruct IH as [Hpre Hr]. split; [by apply prefix_cons|].
        destruct Hr as [(-> & -> & HF)|(sent & s' & h & e & -> & HF & Hf & ->)].
        -- left. split_and!; [done|done|]. by constructor.
        -- right. exists ((s, haveS) :: sent), s', h, e.
           split_and!; [done| |done|done]. by constructor.
Qed.

(** C6, amended.  [needS] holds, oldest first, the snapshots of the source
    whose timestamp no snapshot of the destination has; [toSend] is what is
    left of it without the timestamps that [insert], run on the snapshots
    of the destination and [needS], evicts.  [backupSingle] is called for
    the snapshots of [toSend] one after the other in that order, each time
    with [haveS] followed by the snapshots sent before, as long as no call
    fails: the run ends with the first call that fails and returns its
    error, and it calls [backupSingle] for all of [toSend] when none
    fails. *)
Theorem backup_sends_wanted_in_order pipeline c src dst :
  let needS := needS_of src dst in
  let toSend := toSend_of c src dst in
  let '(c', calls, r) := backup_plan pipeline c src dst in
  (StronglySorted created_lt needS
   ∧ ∀ s, s ∈ needS ↔ by_created src !! created s = Some s
                        ∧ ∀ d, d ∈ dst → created d ≠ created s)
  ∧ (StronglySorted created_lt toSend
     ∧ ∀ s, s ∈ toSend ↔ s ∈ needS
              ∧ ∀ e, e ∈ (insert c (dst ++ needS)).2 →
                     created e ≠ created s)
  ∧ calls.*1 `prefix_of` toSend
  ∧ (∀ i s h, calls !! i = Some (s, h) →
       toSend !! i = Some s ∧ h = haveS_of src dst ++ take i toSend)
  ∧ (r = Ok () ∧ calls.*1 = toSend
     ∧ Forall (λ call, backupSingle pipeline call.1 call.2 = None) calls
     ∨ ∃ sent s h e,
         calls = sent ++ [(s, h)]
         ∧ Forall (λ call, backupSingle pipeline call.1 call.2 = None) sent
         ∧ backupSingle pipeline s h = Some e
         ∧ r = Err (ErrCannotBackup (path s) e)).
Proof.
  intros needS toSend. unfold backup_plan.
  pose proof (backup_loop_spec pipeline (unwanted_of c src dst)
                (needS_of src dst) (haveS_of src dst)) as H.
  simpl in H. fold (toSend_of c src dst) in H. fold toSend in H.
  destruct (backup_loop pipeline (unwanted_of c src dst) (needS_of src dst)
              (haveS_of src dst)) as [calls r].
  destruct H as [Hpre Hr]. destruct (needS_of_spec src dst) as [Hs Hin].
  split_and!; [done|done| | | | |].
  - unfold toSend, toSend_of. clear -Hs.
    induction Hs as [|x l _ IH Hx]; [constructor|].
    destruct (decide (unwanted_of c src dst !! created x = None)).
    + rewrite filter_cons_True by done. constructor; [done|].
      apply Forall_forall. intros y [_ Hy]%list_elem_of_filter.
      by apply (proj1 (Forall_forall _ _) Hx).
    + by rewrite filter_cons_False.
  - intros s. apply toSend_of_spec.
  - destruct Hpre as [k Hk]. exists (k.*1).
    by rewrite <-(plan_calls_fst toSend (haveS_of src dst)), Hk, fmap_app.
  - intros i s h Hi. apply plan_calls_lookup.
    destruct Hpre as [k ->]. by apply lookup_app_l_Some.
  - destruct Hr as [(-> & -> & HF)|Hr]; [left|by right].
    by rewrite plan_calls_fst.
Qed.

(** C6 as stated fails when a transfer fails: two snapshots are to be sent
    and the first call of [backupSingle] returns an error; [app.backup]
    returns it, and no transfer is tried for the second snapshot. *)
Lemma backup_stops_at_first_failure :
  let s1 := Snap "/snap/root/1" "/snap/root/1/snapshot" 100 in
  let s2 := Snap "/snap/root/2" "/snap/root/2/snapshot" 200 in
  let c := [{| interval := 10; snaps_arr := replicate 10 None;
               snaps_len := 0 |}] in
  addBuckets newCascade [tier 10 10] = Ok c
  ∧ toSend_of c [s1; s2] [] = [s1; s2]
  ∧ backup_plan (λ _ _, Some ErrTransfer) c [s1; s2] []
    = (c, [(s1, [])], Err (ErrCannotBackup "/snap/root/1" ErrTransfer)).
Proof. by vm_compute. Qed.

(** ** The parent [backupSingle] picks *)

Lemma send_fold s have : ∀ pp args,
  foldl (send_step s) (pp, args) have
  = (match last (filter (λ hs, created hs < created s) have) with
     | Some hs => subvolPath hs
     | None => pp
     end,
     args ++ (have ≫= λ hs, ["-c"; subvolPath hs])).
Proof.
  induction have as [|hs have IH] using rev_ind; intros pp args.
  - simpl. by rewrite app_nil_r.
  - rewrite foldl_snoc, IH, filter_app, bind_app. unfold send_step at 1.
    simpl. rewrite <-(assoc (++)). f_equal.
    unfold Time.Before. destruct (Z.ltb_spec (created hs) (created s)).
    + rewrite filter_cons_True by done. by rewrite filter_nil, last_snoc.
    + rewrite filter_cons_False by lia. by rewrite filter_nil, app_nil_r.
Qed.

(** The parent is the base that comes last in [have] among those made
    before [s], and each base is passed after a [-c]. *)
Lemma sendArgs_spec s have :
  parentPath s have
  = match last (filter (λ hs, created hs < created s) have) with
    | Some hs => subvolPath hs
    | None => ""
    end
  ∧ sendArgs s have
    = ["send"] ++ (have ≫= λ hs, ["-c"; subvolPath hs])
      ++ (if decide (parentPath s have = "") then []
          else ["-p"; parentPath s have])
      ++ [subvolPath s].
Proof.
  unfold parentPath, sendArgs. rewrite send_fold. simpl. split; [done|].
  destruct (decide _); simpl; by rewrite <-?(assoc (++)).
Qed.

(** X23.  When [have] is in the order of the timestamps, the parent is
    the most recent base made before [s]. *)
Lemma parentPath_sorted s have hs :
  StronglySorted created_le have →
  hs ∈ have → created hs < created s →
  ∃ p, p ∈ have ∧ parentPath s have = subvolPath p
       ∧ created p < created s ∧ created hs <= created p.
Proof.
  intros Hs Hin Hlt. destruct (sendArgs_spec s have) as [-> _].
  assert (hs ∈ filter (λ x, created x < created s) have) as Hf
    by by apply list_elem_of_filter.
  assert (StronglySorted created_le
            (filter (λ x, created x < created s) have)) as Hsf.
  { clear -Hs. induction Hs as [|x l _ IH Hx]; [constructor|].
    destruct (decide (created x < created s)).
    - rewrite filter_cons_True by done. constructor; [done|].
      apply Forall_forall. intros y [_ Hy]%list_elem_of_filter.
      by apply (proj1 (Forall_forall _ _) Hx).
    - by rewrite filter_cons_False. }
  destruct (last (filter (λ x, created x < created s) have)) as [y|] eqn:E.
  - apply last_Some in E as [l E]. exists y.
    assert (y ∈ filter (λ x, created x < created s) have) as Hy
      by (rewrite E, elem_of_app, list_elem_of_singleton; by right).
    apply list_elem_of_filter in Hy as [Hy1 Hy2]. split_and!; [done..|].
    rewrite E in Hf, Hsf.
    apply elem_of_app in Hf as [Hf|Hf];
      [|apply list_elem_of_singleton in Hf as ->; lia].
    by apply (StronglySorted_app_1_elem_of created_le l [y] hs y Hsf);
      [|apply list_elem_of_here].
  - apply last_None in E. rewrite E in Hf. by inv Hf.
Qed.

(** C4 fails on the code.  The source has snapshots of seconds 100, 200,
    220 and 250 and the destination those of seconds 100 and 220.
    [app.backup] sends the snapshot of second 200, appends it to [haveS]
    behind the snapshot of second 220, and sends the snapshot of second
    250 with the parent of second 200, though the base of second 220 is
    more recent and older than second 250. *)
Theorem backup_parent_is_not_most_recent :
  let src n := Snap ("/snap/root/" +:+ n) ("/snap/root/" +:+ n +:+ "/snapshot") in
  let dst n := Snap ("/mnt/snap/" +:+ n) ("/mnt/snap/" +:+ n +:+ "/snapshot") in
  let s100 := src "100" (100 * Time.Second) in
  let s200 := src "200" (200 * Time.Second) in
  let s220 := src "220" (220 * Time.Second) in
  let s250 := src "250" (250 * Time.Second) in
  let buckets := [tier (10 * Time.Second) 10] in
  let root := {| Subvolume := Some "/"; Storage := Some "/snap/root";
                 Buckets := buckets; Backup := None |} in
  let root_backup := {| Subvolume := Some "/"; Storage := Some "/mnt/snap";
                        Buckets := buckets; Backup := Some "root" |} in
  let cfg := {| Profiles := [("root", Some root);
                             ("root-backup", Some root_backup)] |} in
  let findSnaps dir :=
    if decide (dir = "/snap/root") then Ok [s100; s200; s220; s250]
    else if decide (dir = "/mnt/snap")
         then Ok [dst "100" (100 * Time.Second); dst "220" (220 * Time.Second)]
         else Ok [] in
  let c := [{| interval := 10 * Time.Second; snaps_arr := replicate 10 None;
               snaps_len := 0 |}] in
  configJSON_validate cfg = Ok ()
  ∧ addBuckets newCascade buckets = Ok c
  ∧ backup findSnaps (λ _ _, None) cfg c root_backup
    = (c, [(s200, [s100; s220]); (s250, [s100; s220; s200])], Ok ())
  ∧ parentPath s250 [s100; s220; s200] = subvolPath s200
  ∧ sendArgs s250 [s100; s220; s200]
    = ["send"; "-c"; "/snap/root/100/snapshot";
       "-c"; "/snap/root/220/snapshot"; "-c"; "/snap/root/200/snapshot";
       "-p"; "/snap/root/200/snapshot"; "/snap/root/250/snapshot"]
  ∧ created s200 < created s220 < created s250.
Proof. by vm_compute. Qed.

(** ** The run-time checks of [insert] *)

Lemma visit_checked_guarded sh iv i s st :
  index_ok st →
  visit_checked true sh iv i s st = Some (visit sh iv i s st).
Proof.
  intros Hok. unfold visit_checked, visit, rejects. simpl.
  destruct (_ || _) eqn:Hrej; [done|].
  apply orb_false_iff in Hrej as [_ Hc%bool_decide_eq_false].
  destruct Hok as [?|Hlt]; [done|].
  rewrite bool_decide_eq_true_2 by lia.
  destruct (lookup_lt_is_Some_2 _ _ Hlt) as [x ->].
  rewrite bool_decide_eq_false_2 by done. by destruct x.
Qed.

Lemma visit_checked_cells sh iv i s st :
  (0 < length (ts_arr st))%nat →
  visit_checked false sh iv i s st = visit_checked true sh iv i s st.
Proof.
  intros Hc. unfold visit_checked.
  rewrite (bool_decide_eq_false_2 (length (ts_arr st) = 0%nat)) by lia.
  by rewrite andb_false_r, !orb_false_r.
Qed.

Lemma visit_index_ok sh iv i s st :
  index_ok st → index_ok (visit sh iv i s st)
  ∧ length (ts_arr (visit sh iv i s st)) = length (ts_arr st).
Proof.
  intros Hok. destruct (visit_content sh iv i s st Hok) as (? & ? & _). done.
Qed.

Lemma range_loop_checked_ok guard sh iv n : ∀ i st,
  index_ok st → (guard = true ∨ (0 < length (ts_arr st))%nat) →
  range_loop_checked guard sh iv n i st = Some (range_loop sh iv n i st).
Proof.
  induction n as [|n IH]; intros i st Hok Hg; simpl; [done|].
  destruct (ts_in st !! i) as [s|]; [|done].
  assert (visit_checked guard sh iv i s st = Some (visit sh iv i s st)) as ->.
  { destruct Hg as [->|Hc]; [by apply visit_checked_guarded|].
    destruct guard; [by apply visit_checked_guarded|].
    rewrite visit_checked_cells by done. by apply visit_checked_guarded. }
  destruct (visit_index_ok sh iv i s st Hok) as [Hok' Hl].
  apply IH; [done|]. destruct Hg; [by left|right; lia].
Qed.

Lemma insert_buckets_checked_ok guard c : ∀ sh inp out,
  (guard = true ∨ Forall (λ b, (0 < cap b)%nat) c) →
  insert_buckets_checked guard sh c inp out
  = Some (insert_buckets sh c inp out).
Proof.
  induction c as [|b c IH]; intros sh inp out Hg; [done|].
  cbn [insert_buckets_checked insert_buckets].
  unfold insert_bucket_checked, insert_bucket.
  rewrite range_loop_checked_ok.
  - rewrite IH.
    + by destruct (insert_buckets true c _ _).
    + destruct Hg as [?|Hc]; [by left|right]. by inv Hc.
  - unfold index_ok. simpl. lia.
  - destruct Hg as [?|Hc]; [by left|right]. by inv Hc.
Qed.

(** X1.  With its test on the capacity, [insert] never slices or indexes
    [b.snaps] out of range and never divides by zero, whatever the buckets
    hold and whatever their capacities: run with the checks of the Go run
    time it ends without a panic, in the result of [insert]. *)
Theorem insert_never_panics c inp :
  insert_checked true c inp = Some (insert c inp).
Proof. apply insert_buckets_checked_ok. by left. Qed.

(** X2.  The first version of [insert], which has no test on the capacity,
    gives the result of the present one when every bucket has a cell. *)
Theorem first_insert_agrees_with_cells c inp :
  Forall (λ b, (0 < cap b)%nat) c →
  insert_checked false c inp = Some (insert c inp).
Proof. intros Hc. apply insert_buckets_checked_ok. by right. Qed.

Lemma first_insert_agrees_with_cells_witness :
  let c := [{| interval := Time.Hour; snaps_arr := [None; None];
               snaps_len := 0 |}] in
  Forall (λ b, (0 < cap b)%nat) c
  ∧ insert_checked false c (at_minute <$> [0; 30; 65; 125])
    = Some (insert c (at_minute <$> [0; 30; 65; 125])).
Proof.
  assert (Forall (λ b, (0 < cap b)%nat)
            [{| interval := Time.Hour; snaps_arr := [None; None];
                snaps_len := 0 |}]) as H
    by (repeat constructor; simpl; unfold cap; simpl; lia).
  split; [exact H|].
  exact (first_insert_agrees_with_cells _ _ H).
Defined.

(** X3.  The first version of [insert] panics as soon as a bucket without
    cells is offered a snapshot: the first bucket, when the input is not
    empty. *)
Theorem first_insert_panics_without_cells b c inp :
  cap b = 0%nat → inp ≠ [] → insert_checked false (b :: c) inp = None.
Proof.
  intros Hc Hne. unfold insert_checked.
  assert (sortSlice inp ≠ []) as Hs.
  { intros E. apply Hne, Permutation_nil_r. by rewrite <-E, sortSlice_Permutation. }
  destruct (sortSlice inp) as [|s l]; [done|].
  cbn [insert_buckets_checked]. unfold insert_bucket_checked.
  cbn [length range_loop_checked tier_init ts_in lookup list_lookup].
  unfold cap in Hc. unfold visit_checked. simpl. rewrite Hc. simpl. done.
Qed.

Lemma first_insert_panics_without_cells_witness :
  let b := {| interval := Time.Hour; snaps_arr := []; snaps_len := 0 |} in
  (cap b = 0%nat ∧ [at_minute 0] ≠ [])
  ∧ insert_checked false [b] [at_minute 0] = None.
Proof.
  assert (cap {| interval := Time.Hour; snaps_arr := [];
                 snaps_len := 0 |} = 0%nat) as H1 by reflexivity.
  assert ([at_minute 0] ≠ []) as H2 by discriminate.
  split; [by split|].
  exact (first_insert_panics_without_cells _ [] _ H1 H2).
Defined.

(** ** What one bucket takes and what it keeps *)

Lemma omap_free_cells (j : nat) (ring : list snap) :
  omap id (replicate j None ++ (Some <$> ring)) = ring.
Proof.
  induction j as [|j IH]; simpl; [|done].
  induction ring as [|r ring IH]; [done|].
  rewrite fmap_cons.
  change (omap id (Some r :: ?l)) with (r :: omap id l). by f_equal.
Qed.

Lemma visit_ring_inv sh iv i s st :
  ring_inv st → ring_inv (visit sh iv i s st).
Proof.
  intros (Hc & (j & ring & Hv & Hj) & Hat & Hlen).
  assert (index_ok st) as Hok.
  { right. rewrite Hat. by apply Nat.mod_upper_bound, Nat.neq_0_lt_0. }
  destruct (rejects iv i s st) eqn:Hrej.
  { rewrite (visit_reject _ _ _ _ _ Hrej). unfold ring_inv, accepted in *.
    simpl. split_and!; [done|by exists j, ring|done|done]. }
  destruct (visit_accept sh iv i s st Hrej Hok) as (Ha & _ & _ & Hl & Hok').
  destruct Hok as [?|Hlt]; [lia|].
  destruct (lookup_lt_is_Some_2 _ _ Hlt) as [x Hx].
  assert (ring_view (ts_insertAt (visit sh iv i s st))
            (ts_arr (visit sh iv i s st))
          = drop (S (ts_insertAt st)) (ts_arr st)
              ++ take (ts_insertAt st) (ts_arr st) ++ [Some s]
          ∧ ts_overflow (visit sh iv i s st)
            = ts_overflow st ++ from_option (λ t, [t]) [] x
          ∧ ts_len (visit sh iv i s st) = (ts_insertAt st + 1)%nat
          ∧ ts_insertAt (visit sh iv i s st)
            = ((ts_insertAt st + 1) `mod` length (ts_arr st))%nat)
    as (Hv' & Hov' & Hlen' & Hat').
  { unfold visit. rewrite Hrej, Hx. simpl.
    rewrite ring_view_push by done.
    destruct x; simpl; by rewrite ?app_nil_r. }
  rewrite (ring_view_head _ _ _ Hx) in Hv.
  unfold ring_inv. rewrite Hl, Ha, length_app. simpl.
  split_and!; [done| | |].
  - destruct j as [|j]; simpl in Hv.
    + destruct ring as [|r ring]; [done|]. rewrite fmap_cons in Hv.
      injection Hv as -> Hv. exists 0%nat, (ring ++ [s]).
      rewrite Hv', (assoc (++)), Hv, fmap_app. split; [done|lia].
    + injection Hv as -> Hv. exists j, (ring ++ [s]).
      rewrite Hv', (assoc (++)), Hv, fmap_app, <-(assoc (++)).
      split; [done|]. intros Hj'. rewrite Hov'. simpl.
      rewrite app_nil_r. apply Hj. lia.
  - rewrite Hat', Hat. by rewrite Nat.Div0.add_mod_idemp_l.
  - intros _. rewrite Hlen', Hat. f_equal. f_equal. lia.
Qed.

Lemma tier_fold_ring_inv iv l : ∀ i st,
  ring_inv st → ring_inv (tier_fold iv i l st).
Proof.
  induction l as [|s l IH]; intros i st Hinv; simpl; [done|].
  by apply IH, visit_ring_inv.
Qed.

Lemma accepted_init b inp out :
  fresh_bucket b → accepted (erase (tier_init b inp out)) = [].
Proof.
  intros [Harr _]. unfold accepted, ring_view. simpl. rewrite Harr.
  generalize (cap b). by induction n.
Qed.

Lemma ring_inv_init b inp out :
  fresh_bucket b → (0 < cap b)%nat →
  ring_inv (erase (tier_init b inp out)).
Proof.
  intros Hb Hc. unfold ring_inv. rewrite (accepted_init b inp out Hb).
  cbn [erase tier_init ts_arr ts_insertAt ts_overflow ts_len length].
  fold (cap b). rewrite Nat.Div0.mod_0_l.
  split_and!; [done| |done|done].
  exists (cap b), []. unfold ring_view. cbn [drop take fmap list_fmap].
  destruct Hb as [Harr _]. by rewrite <-Harr.
Qed.

(** The loop takes and refuses what [select] says. *)
Lemma tier_fold_select iv l : ∀ i st,
  index_ok st → (0 < length (ts_arr st))%nat →
  let prev := if decide (i = 0%nat) then None
              else Some (ts_prevCreated st) in
  accepted (tier_fold iv i l st) = accepted st ++ (select iv prev l).1
  ∧ ts_out (tier_fold iv i l st) = ts_out st ++ (select iv prev l).2.
Proof.
  induction l as [|s l IH]; intros i st Hok Hc; simpl.
  { by rewrite !app_nil_r. }
  destruct (visit_index_ok false iv i s st Hok) as [Hok' Hl].
  specialize (IH (S i) (visit false iv i s st) Hok').
  rewrite Hl in IH. specialize (IH Hc). simpl in IH.
  assert (rejects iv i s st
          = match (if decide (i = 0%nat) then None
                   else Some (ts_prevCreated st)) with
            | Some p => Time.Sub (created s) p <? iv
            | None => false
            end) as Hrej.
  { unfold rejects. rewrite (bool_decide_eq_false_2 (length _ = 0%nat)) by lia.
    rewrite orb_false_r. destruct (decide (i = 0%nat)) as [->|Hi]; [done|].
    by rewrite bool_decide_eq_true_2 by lia. }
  rewrite <-Hrej. destruct (rejects iv i s st) eqn:E.
  - rewrite (visit_reject _ _ _ _ _ E) in IH |- *. simpl in IH.
    unfold accepted in IH at 2. simpl in IH. fold (accepted st) in IH.
    destruct (decide (i = 0%nat)) as [->|Hi].
    { unfold rejects in E. simpl in E.
      rewrite bool_decide_eq_false_2 in E by lia. done. }
    destruct (select iv (Some (ts_prevCreated st)) l) as [t r].
    destruct IH as [-> ->]. simpl. by rewrite <-(assoc (++)).
  - destruct (visit_accept false iv i s st E Hok) as (Ha & Ho & Hp & _).
    rewrite Ha, Ho, Hp in IH.
    destruct (select iv (Some (created s)) l) as [t r].
    destruct IH as [-> ->]. simpl. by rewrite <-(assoc (++)).
Qed.

(** What a bucket that starts empty, with [n] cells, does with a list:
    it refuses what [select] refuses, keeps the last [n] snapshots that
    [select] takes and passes on those before them. *)
Lemma insert_bucket_select sh b inp out :
  fresh_bucket b → (0 < cap b)%nat →
  let taken := (select (interval b) None inp).1 in
  let refused := (select (interval b) None inp).2 in
  let '(b', out', ov) := insert_bucket sh b inp out in
  out' = out ++ refused
  ∧ ov = take (length taken - cap b) taken
  ∧ ring_view (length taken `mod` cap b) (snaps_arr b')
    = replicate (cap b - length taken) None
        ++ (Some <$> drop (length taken - cap b) taken)
  ∧ bucket_kept b' ≡ₚ drop (length taken - cap b) taken
  ∧ (taken ≠ [] →
     snaps_len b' = ((length taken - 1) `mod` cap b + 1)%nat)
  ∧ (taken = [] → snaps_len b' = 0%nat).
Proof.
  intros Hb Hc. rewrite insert_bucket_fold. simpl.
  pose proof (ring_inv_init b inp out Hb Hc) as Hinv.
  apply (tier_fold_ring_inv (interval b) inp 0) in Hinv.
  destruct (tier_fold_select (interval b) inp 0
              (erase (tier_init b inp out))) as [Hacc Hout].
  { apply index_ok_init. }
  { done. }
  simpl in Hacc, Hout.
  pose proof (accepted_init b inp out Hb) as Hacc0.
  rewrite Hacc0 in Hacc. simpl in Hacc.
  set (st := tier_fold (interval b) 0 inp (erase (tier_init b inp out))) in *.
  set (taken := (select (interval b) None inp).1) in *.
  destruct Hinv as (_ & (j & ring & Hv & Hj) & Hat & Hlen).
  destruct (tier_fold_content (interval b) inp 0 _ (index_ok_init b inp out))
    as (_ & Hl & _).
  fold st in Hl. simpl in Hl. fold (cap b) in Hl.
  rewrite Hl, Hacc in Hat, Hlen.
  assert (length (ring_view (ts_insertAt st) (ts_arr st)) = cap b) as Hlv
    by (unfold ring_view; rewrite length_app, length_drop, length_take; lia).
  rewrite Hv, length_app, length_replicate, length_fmap in Hlv.
  unfold accepted in Hacc. rewrite Hv, omap_free_cells in Hacc.
  assert (ts_overflow st = take (length taken - cap b) taken
          ∧ ring = drop (length taken - cap b) taken
          ∧ j = (cap b - length taken)%nat) as (Hov & Hring & Hj').
  { destruct j as [|j].
    - rewrite <-Hacc, length_app.
      replace (length (ts_overflow st) + length ring - cap b)%nat
        with (length (ts_overflow st)) by lia.
      rewrite take_app_length, drop_app_length. split_and!; [done|done|lia].
    - rewrite Hj in Hacc |- * by lia. simpl in Hacc. subst ring.
      replace (length taken - cap b)%nat with 0%nat by lia.
      split_and!; [done|done|lia]. }
  split_and!.
  - done.
  - done.
  - by rewrite <-Hat, Hv, Hj', Hring.
  - unfold bucket_kept. simpl.
    by rewrite <-(ring_view_perm (ts_insertAt st)), Hv, omap_free_cells, Hring.
  - done.
  - intros E. assert (inp = []) as Hi.
    { destruct inp as [|s l]; [done|]. unfold taken in E. simpl in E.
      by destruct (select (interval b) (Some (created s)) l). }
    unfold st. rewrite Hi. simpl. by destruct Hb.
Qed.

(** ** The ring as a queue, whatever it holds *)

Lemma visit_queue iv i s st x :
  rejects iv i s st = false → ts_arr st !! ts_insertAt st = Some x →
  let st' := visit false iv i s st in
  ring_view (ts_insertAt st') (ts_arr st')
  = (drop (S (ts_insertAt st)) (ts_arr st)
       ++ take (ts_insertAt st) (ts_arr st)) ++ [Some s]
  ∧ ts_overflow st' = ts_overflow st ++ from_option (λ t, [t]) [] x
  ∧ ts_out st' = ts_out st
  ∧ ts_prevCreated st' = created s.
Proof.
  intros Hrej Hx. pose proof (lookup_lt_Some _ _ _ Hx) as Hlt.
  unfold visit. rewrite Hrej, Hx. simpl.
  rewrite ring_view_push, (assoc (++)) by done.
  destruct x; simpl; by rewrite ?app_nil_r.
Qed.

Lemma tier_fold_queue iv l : ∀ i st,
  index_ok st → (0 < length (ts_arr st))%nat →
  let prev := if decide (i = 0%nat) then None
              else Some (ts_prevCreated st) in
  let taken := (select iv prev l).1 in
  let queue := ring_view (ts_insertAt st) (ts_arr st) ++ (Some <$> taken) in
  let st' := tier_fold iv i l st in
  ring_view (ts_insertAt st') (ts_arr st') = drop (length taken) queue
  ∧ ts_overflow st' = ts_overflow st ++ omap id (take (length taken) queue)
  ∧ ts_out st' = ts_out st ++ (select iv prev l).2.
Proof.
  induction l as [|s l IH]; intros i st Hok Hc; simpl.
  { by rewrite !app_nil_r. }
  destruct (visit_index_ok false iv i s st Hok) as [Hok' Hl].
  specialize (IH (S i) (visit false iv i s st) Hok').
  rewrite Hl in IH. specialize (IH Hc). simpl in IH.
  assert (rejects iv i s st
          = match (if decide (i = 0%nat) then None
                   else Some (ts_prevCreated st)) with
            | Some p => Time.Sub (created s) p <? iv
            | None => false
            end) as Hrej.
  { unfold rejects. rewrite (bool_decide_eq_false_2 (length _ = 0%nat)) by lia.
    rewrite orb_false_r. destruct (decide (i = 0%nat)) as [->|Hi]; [done|].
    by rewrite bool_decide_eq_true_2 by lia. }
  rewrite <-Hrej. destruct (rejects iv i s st) eqn:E.
  - rewrite (visit_reject _ _ _ _ _ E) in IH |- *. simpl in IH.
    destruct (decide (i = 0%nat)) as [->|Hi].
    { unfold rejects in E. simpl in E.
      rewrite bool_decide_eq_false_2 in E by lia. done. }
    destruct (select iv (Some (ts_prevCreated st)) l) as [t r].
    simpl in *. destruct IH as (-> & -> & ->).
    by rewrite <-(assoc (++)).
  - destruct Hok as [?|Hlt]; [lia|].
    destruct (lookup_lt_is_Some_2 _ _ Hlt) as [x Hx].
    destruct (visit_queue iv i s st x E Hx) as (Hv & Ho & Hout & Hp).
    rewrite Hv, Ho, Hout, Hp in IH.
    rewrite (ring_view_head _ _ _ Hx).
    set (rest := drop (S (ts_insertAt st)) (ts_arr st)
                   ++ take (ts_insertAt st) (ts_arr st)) in *.
    destruct (select iv (Some (created s)) l) as [t r].
    cbn [fst snd] in IH |- *. destruct IH as (-> & -> & ->).
    assert ((rest ++ [Some s]) ++ (Some <$> t)
            = rest ++ (Some <$> s :: t)) as -> by by rewrite <-(assoc (++)).
    change (drop (length (s :: t)) ((x :: rest) ++ (Some <$> s :: t)))
      with (drop (length t) (rest ++ (Some <$> s :: t))).
    change (take (length (s :: t)) ((x :: rest) ++ (Some <$> s :: t)))
      with (x :: take (length t) (rest ++ (Some <$> s :: t))).
    split_and!; [done| |done].
    rewrite <-(assoc (++)). f_equal. by destruct x.
Qed.

Lemma omap_take_free_cells (n : nat) (l : list snap) : ∀ k,
  omap id (take k (replicate n None ++ (Some <$> l))) = take (k - n) l
  ∧ omap id (drop k (replicate n None ++ (Some <$> l))) = drop (k - n) l.
Proof.
  induction n as [|n IH]; intros k.
  - rewrite Nat.sub_0_r. simpl. rewrite <-fmap_take, <-fmap_drop.
    split; apply (omap_free_cells 0).
  - destruct k as [|k].
    + simpl. split; [done|]. apply (omap_free_cells (S n)).
    + simpl. apply IH.
Qed.

(** One pass over a bucket is [tier_lists] on its cells. *)
Lemma insert_bucket_lists sh b inp out :
  let '(rejected, displaced, held) :=
    tier_lists (interval b) (snaps_arr b) inp in
  let '(b', out', ov) := insert_bucket sh b inp out in
  out' = out ++ rejected ∧ ov = displaced ∧ bucket_kept b' ≡ₚ held.
Proof.
  unfold tier_lists. rewrite insert_bucket_fold. cbn zeta.
  destruct (decide (snaps_arr b = [])) as [Hc|Hc].
  - rewrite tier_fold_no_cells by done. simpl.
    split_and!; [done|done|]. unfold bucket_kept. simpl. by rewrite Hc.
  - destruct (tier_fold_queue (interval b) inp 0
                (erase (tier_init b inp out))) as (Hv & Ho & Hout).
    { apply index_ok_init. }
    { simpl. destruct (snaps_arr b); simpl; [done|lia]. }
    simpl in Hv, Ho, Hout. unfold ring_view in Hv at 2, Ho. simpl in Hv, Ho.
    rewrite app_nil_r in Hv, Ho.
    destruct (select (interval b) None inp) as [taken refused].
    simpl in *. split_and!; [done|done|].
    unfold bucket_kept. simpl.
    set (st := tier_fold (interval b) 0 inp (erase (tier_init b inp out)))
      in *.
    by rewrite <-(ring_view_perm (ts_insertAt st) (ts_arr st)), Hv.
Qed.

(** The loop over the buckets of a cascade is [cascade_lists]. *)
Lemma insert_buckets_lists c : ∀ sh inp out,
  let '(helds, evicted) :=
    cascade_lists ((λ b, (interval b, snaps_arr b)) <$> c) inp in
  (insert_buckets sh c inp out).2 = out ++ evicted
  ∧ Forall2 (λ b' held, bucket_kept b' ≡ₚ held)
      (insert_buckets sh c inp out).1 helds.
Proof.
  induction c as [|b c IH]; intros sh inp out.
  - simpl. split; [done|constructor].
  - rewrite fmap_cons. cbn [cascade_lists insert_buckets].
    pose proof (insert_bucket_lists sh b inp out) as H.
    destruct (tier_lists (interval b) (snaps_arr b) inp)
      as [[rejected displaced] held].
    destruct (insert_bucket sh b inp out) as [[b' out'] ov].
    destruct H as (-> & -> & Hk).
    specialize (IH true displaced (out ++ rejected)).
    destruct (cascade_lists _ displaced) as [helds evicted].
    destruct (insert_buckets true c displaced (out ++ rejected))
      as [c' res].
    simpl in *. destruct IH as [-> HF].
    split; [by rewrite <-(assoc (++))|by constructor].
Qed.

(** C1, amended.  When the capacity of the bucket is zero, or the snapshot
    is not the first of the loop and is less than the interval after the
    last one the bucket took, the round leaves the ring and [overflow] (the
    input of the next bucket) as they are and appends the snapshot to
    [out]; it stays there for the rest of the loop over this bucket, and
    through the buckets that follow, to the result of [insert].  In the
    other case the bucket takes the snapshot: [out] is left as it is, and
    [overflow] gets the snapshot that was in the cell that is written, if
    there was one, and nothing else.  So one pass over a bucket, whatever
    its ring holds, appends to [out] the snapshots the bucket rejects, and
    the input of the next bucket is made of the snapshots displaced from
    the ring, and of them only: what is rejected, displaced and held is
    what the ring held and the input, each snapshot once.  For a bucket
    that starts empty, with [n] cells, the snapshots held are the last [n]
    of those taken and the displaced ones are those taken before them.
    For the cascade, the evicted snapshots are those rejected by the
    buckets, bucket after bucket, followed by those displaced out of the
    last bucket, and each bucket holds what [cascade_lists] says. *)
Theorem rejected_is_evicted_at_once sh iv i s st b c inp out :
  (length (ts_arr st) = 0%nat
   ∨ (0 < i)%nat ∧ Time.Sub (created s) (ts_prevCreated st) < iv →
   let st' := visit sh iv i s st in
   (ts_arr st' = ts_arr st ∧ ts_len st' = ts_len st
    ∧ ts_insertAt st' = ts_insertAt st
    ∧ ts_prevCreated st' = ts_prevCreated st
    ∧ ts_overflow st' = ts_overflow st
    ∧ ts_out st' = ts_out st ++ [s])
   ∧ (∀ n, ts_out st ++ [s]
           `prefix_of` ts_out (range_loop sh iv n (S i) st'))
   ∧ (∀ c ov out, ts_out st ++ [s] `prefix_of` out →
        ts_out st ++ [s] `prefix_of` (insert_buckets true c ov out).2))
  ∧ (¬ (length (ts_arr st) = 0%nat
        ∨ (0 < i)%nat ∧ Time.Sub (created s) (ts_prevCreated st) < iv) →
     let st' := visit sh iv i s st in
     ts_out st' = ts_out st
     ∧ ts_arr st' = <[ts_insertAt st := Some s]> (ts_arr st)
     ∧ ts_overflow st'
       = ts_overflow st
           ++ match ts_arr st !! ts_insertAt st with
              | Some (Some t) => [t]
              | _ => []
              end)
  ∧ (let '(rejected, displaced, held) :=
       tier_lists (interval b) (snaps_arr b) inp in
     let '(b', out', ov) := insert_bucket sh b inp out in
     out' = out ++ rejected
     ∧ ov = displaced
     ∧ bucket_kept b' ≡ₚ held
     ∧ rejected ++ displaced ++ held ≡ₚ bucket_kept b ++ inp)
  ∧ (fresh_bucket b →
     let '(taken, refused) :=
       if decide (cap b = 0%nat) then ([], inp)
       else select (interval b) None inp in
     tier_lists (interval b) (snaps_arr b) inp
     = (refused,
        take (length taken - cap b) taken,
        drop (length taken - cap b) taken))
  ∧ (let tiers := (λ b, (interval b, snaps_arr b)) <$> c in
     (let '(helds, evicted) := cascade_lists tiers inp in
      (insert_buckets sh c inp out).2 = out ++ evicted
      ∧ Forall2 (λ b' held, bucket_kept b' ≡ₚ held)
          (insert_buckets sh c inp out).1 helds)
     ∧ (let '(helds, evicted) := cascade_lists tiers (sortSlice inp) in
        (insert c inp).2 = evicted
        ∧ Forall2 (λ b' held, bucket_kept b' ≡ₚ held)
            (insert c inp).1 helds)).
Proof.
  split_and!.
  - intros Hrej%rejects_spec. simpl.
    assert (ts_out (visit sh iv i s st) = ts_out st ++ [s]) as Hout
      by by rewrite (visit_reject _ _ _ _ _ Hrej).
    split; [|split].
    + by rewrite (visit_reject _ _ _ _ _ Hrej).
    + intros n. rewrite <-Hout. apply range_loop_out_prefix.
    + intros c0 ov out0 Hpre.
      etrans; [done|apply insert_buckets_out_prefix].
  - intros Hrej. rewrite <-rejects_spec in Hrej.
    apply not_true_is_false in Hrej. unfold visit. rewrite Hrej.
    destruct (ts_arr st !! ts_insertAt st) as [[t|]|]; simpl;
      by rewrite ?app_nil_r.
  - pose proof (insert_bucket_lists sh b inp out) as H.
    pose proof (insert_bucket_content sh b inp out) as Hp.
    destruct (tier_lists (interval b) (snaps_arr b) inp)
      as [[rejected displaced] held].
    destruct (insert_bucket sh b inp out) as [[b' out'] ov].
    destruct H as (-> & -> & Hk), Hp as (_ & _ & Hp).
    split_and!; [done..|].
    rewrite Hk in Hp.
    apply (Permutation_app_inv_l out).
    transitivity (held ++ (out ++ rejected) ++ displaced);
      [solve_Permutation|].
    rewrite Hp. solve_Permutation.
  - intros [Harr _]. unfold tier_lists. rewrite Harr.
    destruct (decide (cap b = 0%nat)) as [Hc|Hc].
    + rewrite Hc. reflexivity.
    + rewrite decide_False by (by destruct (cap b)).
      destruct (select (interval b) None inp) as [taken refused].
      by destruct (omap_take_free_cells (cap b) taken (length taken))
        as [-> ->].
  - intros tiers. split.
    + apply (insert_buckets_lists c sh inp out).
    + apply (insert_buckets_lists c false (sortSlice inp) []).
Qed.

Lemma rejected_is_evicted_at_once_witness :
  let st := {| ts_in := [at_minute 0; at_minute 30];
               ts_arr := [Some (at_minute 0)]; ts_len := 1;
               ts_insertAt := 0; ts_prevCreated := 0;
               ts_out := []; ts_overflow := [] |} in
  let b := {| interval := Time.Hour; snaps_arr := [None];
              snaps_len := 0 |} in
  let inp := at_minute <$> [0; 30; 65; 125] in
  (((0 < 1)%nat
    ∧ Time.Sub (created (at_minute 30)) (ts_prevCreated st) < Time.Hour)
   ∧ fresh_bucket b)
  ∧ ts_out (visit false Time.Hour 1 (at_minute 30) st) = [at_minute 30]
  ∧ tier_lists Time.Hour [None] inp
    = ([at_minute 30], [at_minute 0; at_minute 65], [at_minute 125])
  ∧ cascade_lists [(Time.Hour, [None]); (Time.Hour, [None])] inp
    = ([[at_minute 125]; [at_minute 65]], [at_minute 30; at_minute 0])
  ∧ (insert [b; b] inp).2 = [at_minute 30; at_minute 0].
Proof.
  intros st b inp.
  assert ((0 < 1)%nat ∧ Time.Sub (created (at_minute 30)) 0 < Time.Hour)
    as H1 by (split; [lia|reflexivity]).
  assert (fresh_bucket b) as H2 by (split; reflexivity).
  split; [exact (conj H1 H2)|].
  destruct (rejected_is_evicted_at_once false Time.Hour 1 (at_minute 30)
              st b [b; b] inp []) as (T1 & _ & _ & T2 & T3).
  split_and!.
  - exact (proj2 (proj2 (proj2 (proj2 (proj2 (proj1
      (T1 (or_intror H1)))))))).
  - exact (T2 H2).
  - reflexivity.
  - exact (proj1 (proj2 T3)).
Defined.

(** X4.  From the second bucket on, [in] and [overflow] share one backing
    array, and [append(overflow, t)] writes into the array that the range
    loop is reading; the loop has always read a cell before it is written,
    so the bucket, [out] and [overflow] are what they would be with two
    arrays. *)
Theorem shared_array_is_harmless b inp out :
  insert_bucket true b inp out = insert_bucket false b inp out.
Proof. by rewrite !insert_bucket_fold. Qed.

(** X5.  [insert] on buckets that already hold snapshots (a cascade used
    before and not reset) loses nothing and makes nothing up: what the
    buckets keep after the call and what is evicted are, up to order, what
    they kept before and the input; the buckets keep their intervals and
    capacities. *)
Theorem insert_on_used_cascade c inp :
  kept (insert c inp).1 ++ (insert c inp).2 ≡ₚ kept c ++ inp
  ∧ Forall2 (λ b b', interval b' = interval b ∧ cap b' = cap b)
      c (insert c inp).1.
Proof. destruct (insert_content c inp) as [HF Hp]. by split. Qed.

Lemma select_Permutation iv l : ∀ prev,
  (select iv prev l).1 ++ (select iv prev l).2 ≡ₚ l.
Proof.
  induction l as [|s l IH]; intros prev; simpl; [done|].
  destruct (match prev with Some p => _ | None => false end).
  - specialize (IH prev). destruct (select iv prev l) as [t r]. simpl in *.
    by rewrite <-Permutation_middle, IH.
  - specialize (IH (Some (created s))).
    destruct (select iv (Some (created s)) l) as [t r]. simpl in *.
    by rewrite IH.
Qed.

(** X6.  A bucket that starts empty, with at least one cell, takes the
    first snapshot of its input and then each snapshot that is not less
    than its interval after the last one it took.  The others go to [out]
    in the order of the input; of the snapshots taken, the last ones, as
    many as the bucket has cells, stay in the bucket, and those before them
    are the input of the next bucket, oldest first. *)
Theorem bucket_keeps_last_taken sh b inp out :
  fresh_bucket b → (0 < cap b)%nat →
  let taken := (select (interval b) None inp).1 in
  let refused := (select (interval b) None inp).2 in
  let '(b', out', ov) := insert_bucket sh b inp out in
  taken ++ refused ≡ₚ inp
  ∧ out' = out ++ refused
  ∧ ov = take (length taken - cap b) taken
  ∧ bucket_kept b' ≡ₚ drop (length taken - cap b) taken.
Proof.
  intros Hb Hc taken refused.
  pose proof (insert_bucket_select sh b inp out Hb Hc) as H.
  cbv zeta in H. fold taken refused in H.
  destruct (insert_bucket sh b inp out) as [[b' out'] ov].
  destruct H as (H1 & H2 & _ & H4 & _).
  split_and!; [apply select_Permutation|done..].
Qed.

Lemma bucket_keeps_last_taken_witness :
  let b := {| interval := Time.Hour; snaps_arr := [None; None];
              snaps_len := 0 |} in
  let inp := at_minute <$> [0; 30; 65; 125] in
  (fresh_bucket b ∧ (0 < cap b)%nat)
  ∧ let taken := (select (interval b) None inp).1 in
    let refused := (select (interval b) None inp).2 in
    let '(b', out', ov) := insert_bucket false b inp [] in
    taken ++ refused ≡ₚ inp
    ∧ out' = [] ++ refused
    ∧ ov = take (length taken - cap b) taken
    ∧ bucket_kept b' ≡ₚ drop (length taken - cap b) taken.
Proof.
  assert (fresh_bucket {| interval := Time.Hour; snaps_arr := [None; None];
                          snaps_len := 0 |}) as H1 by (split; reflexivity).
  assert (0 < cap {| interval := Time.Hour; snaps_arr := [None; None];
                     snaps_len := 0 |})%nat as H2 by (unfold cap; simpl; lia).
  split; [by split|].
  exact (bucket_keeps_last_taken false _ (at_minute <$> [0; 30; 65; 125])
           [] H1 H2).
Defined.

(** ** The newest snapshot *)

Lemma select_last iv l : ∀ prev z,
  last l = Some z →
  last (select iv prev l).1 = Some z
  ∨ ∃ p, Time.Sub (created z) p < iv
         ∧ (prev = Some p ∧ (select iv prev l).1 = []
            ∨ ∃ x, last (select iv prev l).1 = Some x ∧ p = created x).
Proof.
  induction l as [|s l IH]; intros prev z Hz; [done|].
  destruct (decide (l = [])) as [->|Hl].
  - injection Hz as ->.
    destruct prev as [p|]; simpl; [|by left].
    destruct (Z.ltb_spec (Time.Sub (created z) p) iv); simpl; [|by left].
    right. exists p. split; [done|by left].
  - assert (last l = Some z) as Hz' by (by destruct l).
    cbn [select].
    destruct (match prev with Some p => _ | None => false end).
    + specialize (IH prev z Hz').
      by destruct (select iv prev l) as [t r].
    + specialize (IH (Some (created s)) z Hz').
      destruct (select iv (Some (created s)) l) as [t r].
      simpl in *. destruct IH as [IH|(p & Hp & IH)].
      * left. by destruct t.
      * right. exists p. split; [done|]. right.
        destruct IH as [[[= <-] ->]|(x & Hx & ->)]; [by exists s|].
        exists x. split; [|done]. by destruct t.
Qed.

Lemma sorted_last_max l z :
  StronglySorted created_le l → last l = Some z →
  ∀ s, s ∈ l → created s <= created z.
Proof.
  intros Hs Hz s Hin. apply last_Some in Hz as [l' ->].
  apply elem_of_app in Hin as [Hin|Hin].
  - by apply (StronglySorted_app_1_elem_of created_le l' [z] s z Hs);
      [|apply list_elem_of_here].
  - apply list_elem_of_singleton in Hin as ->. lia.
Qed.

Lemma insert_first_bucket_recent b c inp :
  fresh_bucket b → (0 < cap b)%nat → inp ≠ [] →
  ∃ b' z r,
    head (insert (b :: c) inp).1 = Some b'
    ∧ z ∈ inp ∧ (∀ s, s ∈ inp → created s <= created z)
    ∧ r ∈ bucket_kept b' ∧ r ∈ inp ∧ created r <= created z
    ∧ (r = z ∨ Time.Sub (created z) (created r) < interval b).
Proof.
  intros Hb Hc Hne. unfold insert. cbn [insert_buckets].
  pose proof (insert_bucket_select false b (sortSlice inp) [] Hb Hc) as H.
  cbv zeta in H.
  destruct (insert_bucket false b (sortSlice inp) []) as [[b' out'] ov].
  destruct (insert_buckets true c ov out') as [c' res]. simpl.
  destruct H as (_ & _ & _ & Hk & _).
  destruct (last (sortSlice inp)) as [z|] eqn:Hz.
  2:{ apply last_None in Hz. destruct Hne. apply Permutation_nil_r.
      by rewrite <-Hz, sortSlice_Permutation. }
  assert (∀ s, s ∈ inp → created s <= created z) as Hmax.
  { intros s Hs.
    apply (sorted_last_max _ _ (sortSlice_sorted inp) Hz).
    by rewrite sortSlice_Permutation. }
  assert (z ∈ inp) as Hzin.
  { rewrite <-(sortSlice_Permutation inp). by apply last_Some_elem_of. }
  pose proof (select_Permutation (interval b) (sortSlice inp) None) as Hperm.
  set (taken := (select (interval b) None (sortSlice inp)).1) in *.
  assert (∃ r, last taken = Some r
               ∧ (r = z ∨ Time.Sub (created z) (created r) < interval b))
    as (r & Hr & Hrz).
  { destruct (select_last (interval b) _ None z Hz)
      as [H|(p & Hp & [[? _]|(x & Hx & ->)])]; [by exists z; split; [|left]|done|].
    exists x. split; [done|by right]. }
  assert (r ∈ taken) as Hrt by by apply last_Some_elem_of.
  assert (r ∈ inp) as Hrin.
  { rewrite <-(sortSlice_Permutation inp), <-Hperm, elem_of_app. by left. }
  exists b', z, r. split_and!; [done|done|done| |done|by apply Hmax|done].
  rewrite Hk. apply last_Some in Hr as [t' Ht]. rewrite Ht, length_app.
  simpl. rewrite drop_app.
  apply elem_of_app. right.
  replace (length t' + 1 - cap b - length t')%nat with 0%nat by lia.
  simpl. apply list_elem_of_here.
Qed.

(** X7.  When the first bucket starts empty and has at least one cell, and
    the input is not empty, that bucket keeps the newest snapshot of the
    input or one that is less than its interval older: [insert] never
    evicts every snapshot. *)
Theorem insert_keeps_a_recent_snapshot b c inp :
  fresh_bucket b → (0 < cap b)%nat → inp ≠ [] →
  ∃ b' z r,
    head (insert (b :: c) inp).1 = Some b'
    ∧ z ∈ inp ∧ (∀ s, s ∈ inp → created s <= created z)
    ∧ r ∈ bucket_kept b' ∧ r ∈ inp ∧ created r <= created z
    ∧ (r = z ∨ Time.Sub (created z) (created r) < interval b).
Proof. apply insert_first_bucket_recent. Qed.

Lemma insert_keeps_a_recent_snapshot_witness :
  let b := {| interval := Time.Hour; snaps_arr := [None; None];
              snaps_len := 0 |} in
  (fresh_bucket b ∧ (0 < cap b)%nat ∧ [at_minute 0; at_minute 30] ≠ [])
  ∧ ∃ b' z r,
      head (insert [b] [at_minute 0; at_minute 30]).1 = Some b'
      ∧ z ∈ [at_minute 0; at_minute 30]
      ∧ (∀ s, s ∈ [at_minute 0; at_minute 30] → created s <= created z)
      ∧ r ∈ bucket_kept b' ∧ r ∈ [at_minute 0; at_minute 30]
      ∧ created r <= created z
      ∧ (r = z ∨ Time.Sub (created z) (created r) < interval b).
Proof.
  assert (fresh_bucket {| interval := Time.Hour; snaps_arr := [None; None];
                          snaps_len := 0 |}) as H1 by (split; reflexivity).
  assert (0 < cap {| interval := Time.Hour; snaps_arr := [None; None];
                     snaps_len := 0 |})%nat as H2 by (unfold cap; simpl; lia).
  assert ([at_minute 0; at_minute 30] ≠ []) as H3 by discriminate.
  split; [by split_and!|].
  exact (insert_keeps_a_recent_snapshot _ [] _ H1 H2 H3).
Defined.

(** ** Older snapshots further down *)

Lemma insert_bucket_overflow_older sh b inp out :
  fresh_bucket b → StronglySorted created_le inp →
  let '(b', out', ov) := insert_bucket sh b inp out in
  ∀ o r, o ∈ ov → r ∈ bucket_kept b' → created o <= created r.
Proof.
  intros Hb Hs. rewrite insert_bucket_fold. simpl.
  destruct (tier_fold_inv _ _ _ _ (tier_inv_init b inp out Hb Hs))
    as (_ & _ & Hch & _).
  intros o r Ho Hr. unfold bucket_kept in Hr. simpl in Hr.
  rewrite <-(ring_view_perm (ts_insertAt
    (tier_fold (interval b) 0 inp (erase (tier_init b inp out))))) in Hr.
  by destruct (StronglySorted_app_1_elem_of _ _ _ o r Hch Ho Hr).
Qed.

Lemma elem_of_kept c x :
  x ∈ kept c ↔ ∃ b, b ∈ c ∧ x ∈ bucket_kept b.
Proof.
  unfold kept. rewrite list_elem_of_bind.
  split; intros (b & ? & ?); by exists b.
Qed.

Lemma insert_buckets_kept_subset c sh inp out :
  Forall fresh_bucket c →
  ∀ x, x ∈ kept (insert_buckets sh c inp out).1 → x ∈ inp.
Proof.
  intros Hc x Hx.
  pose proof (insert_buckets_content c sh inp out) as H.
  pose proof (insert_buckets_out_prefix c sh inp out) as [k Hk].
  destruct (insert_buckets sh c inp out) as [c' res]. simpl in *.
  destruct H as [_ H]. rewrite (fresh_kept c Hc), Hk in H. simpl in H.
  rewrite (assoc (++)), (comm (++) (kept c')), <-(assoc (++)) in H.
  apply Permutation_app_inv_l in H.
  rewrite <-H, elem_of_app. by left.
Qed.

Lemma insert_buckets_older c : ∀ sh inp out,
  Forall fresh_bucket c → StronglySorted created_le inp →
  StronglySorted
    (λ b1 b2, ∀ r o, r ∈ bucket_kept b1 → o ∈ bucket_kept b2 →
                     created o <= created r)
    (insert_buckets sh c inp out).1.
Proof.
  induction c as [|b c IH]; intros sh inp out Hc Hs; cbn [insert_buckets].
  - constructor.
  - apply Forall_cons in Hc as [Hb Hc].
    pose proof (insert_bucket_overflow_older sh b inp out Hb Hs) as Hold.
    pose proof (insert_bucket_spaced sh b inp out Hb Hs) as Hsp.
    destruct (insert_bucket sh b inp out) as [[b' out'] ov].
    destruct Hsp as [_ Hov].
    specialize (IH true ov out' Hc Hov).
    pose proof (insert_buckets_kept_subset c true ov out' Hc) as Hsub.
    destruct (insert_buckets true c ov out') as [c' res]. simpl in *.
    constructor; [done|]. apply Forall_forall. intros b2 Hb2 r o Hr Ho.
    apply Hold; [|done]. apply Hsub, elem_of_kept. by exists b2.
Qed.

(** X8.  In a cascade that starts empty, a bucket further down keeps
    nothing newer than what a bucket before it keeps: for any two buckets,
    every snapshot of the later one is at least as old as every snapshot
    of the earlier one. *)
Theorem later_buckets_keep_older c inp :
  Forall fresh_bucket c →
  StronglySorted
    (λ b1 b2, ∀ r o, r ∈ bucket_kept b1 → o ∈ bucket_kept b2 →
                     created o <= created r)
    (insert c inp).1.
Proof. intros Hc. by apply insert_buckets_older, sortSlice_sorted. Qed.

Lemma later_buckets_keep_older_witness :
  let c := [{| interval := Time.Minute; snaps_arr := [None];
               snaps_len := 0 |};
            {| interval := Time.Hour; snaps_arr := [None; None];
               snaps_len := 0 |}] in
  Forall fresh_bucket c
  ∧ StronglySorted
      (λ b1 b2, ∀ r o, r ∈ bucket_kept b1 → o ∈ bucket_kept b2 →
                       created o <= created r)
      (insert c (at_minute <$> [0; 30; 65; 125])).1.
Proof.
  assert (Forall fresh_bucket
            [{| interval := Time.Minute; snaps_arr := [None];
                snaps_len := 0 |};
             {| interval := Time.Hour; snaps_arr := [None; None];
                snaps_len := 0 |}]) as H
    by (repeat constructor).
  split; [exact H|].
  exact (later_buckets_keep_older _ (at_minute <$> [0; 30; 65; 125]) H).
Defined.

(** ** [reset] when no ring has gone round *)

Lemma insert_buckets_nil c : ∀ sh out,
  insert_buckets sh c [] out = (c, out).
Proof.
  induction c as [|b c IH]; intros sh out; cbn [insert_buckets].
  - by rewrite app_nil_r.
  - unfold insert_bucket. simpl. rewrite IH. by destruct b.
Qed.

Lemma reset_bucket_fresh b : fresh_bucket b → reset_bucket b = b.
Proof.
  intros [_ Hlen]. unfold reset_bucket.
  destruct b as [iv arr len]. simpl in *. by rewrite Hlen.
Qed.

Lemma reset_fresh c : Forall fresh_bucket c → reset c = c.
Proof.
  induction 1 as [|b c Hb _ IH]; [done|].
  unfold reset in *. rewrite fmap_cons, IH. by rewrite reset_bucket_fresh.
Qed.

Lemma reset_after_insert_bucket sh b inp out :
  fresh_bucket b → (length inp ≤ cap b)%nat →
  let '(b', out', ov) := insert_bucket sh b inp out in
  reset_bucket b' = b ∧ ov = [].
Proof.
  intros Hb Hlen. destruct (decide (cap b = 0)%nat) as [Hc|Hc].
  { destruct inp; [|simpl in Hlen; lia].
    unfold insert_bucket. simpl. split; [|done].
    destruct b as [iv arr len]. simpl. apply (reset_bucket_fresh _ Hb). }
  pose proof (insert_bucket_select sh b inp out Hb) as H.
  pose proof (insert_bucket_content sh b inp out) as Hct.
  cbv zeta in H.
  pose proof (select_Permutation (interval b) inp None) as Hperm.
  set (taken := (select (interval b) None inp).1) in *.
  set (refused := (select (interval b) None inp).2) in *.
  destruct (insert_bucket sh b inp out) as [[b' out'] ov].
  destruct (H ltac:(lia)) as (_ & Hov & Hv & _ & Hl1 & Hl0).
  destruct Hct as (Hi & Hcap & _).
  assert (length taken ≤ cap b)%nat as Hk.
  { apply Permutation_length in Hperm. rewrite length_app in Hperm. lia. }
  replace (length taken - cap b)%nat with 0%nat in * by lia.
  rewrite drop_0 in Hv. split; [|done].
  assert (snaps_len b' = length taken) as Hlen'.
  { destruct (decide (taken = [])) as [E|E]; [by rewrite Hl0, E|].
    rewrite Hl1 by done.
    assert (0 < length taken)%nat by (destruct taken; [done|simpl; lia]).
    rewrite Nat.mod_small by lia. lia. }
  assert (drop (length taken) (snaps_arr b')
          = replicate (cap b - length taken) None) as Hd.
  { destruct (decide (length taken = cap b)) as [E|E].
    - rewrite drop_ge by (fold (cap b'); lia).
      by replace (cap b - length taken)%nat with 0%nat by lia.
    - rewrite Nat.mod_small in Hv by lia. unfold ring_view in Hv.
      apply app_inj_1 in Hv as [Hv _]; [done|].
      rewrite length_drop, length_replicate. fold (cap b'). lia. }
  unfold reset_bucket. rewrite Hlen', Hcap, Hd, Hi.
  rewrite Nat.min_l, <-replicate_add by lia.
  replace (length taken + (cap b - length taken))%nat with (cap b) by lia.
  destruct Hb as [Harr Hl]. destruct b as [iv arr len]. simpl in *.
  by rewrite <-Harr, Hl.
Qed.

(** X9.  When the cascade starts empty and the input has no more snapshots
    than the first bucket has cells, no ring goes round, and [reset] after
    [insert] gives the empty cascade back: a second [insert] of the same
    input then gives the result of the first. *)
Theorem reset_restores_when_input_fits b c inp :
  Forall fresh_bucket (b :: c) → (length inp ≤ cap b)%nat →
  reset (insert (b :: c) inp).1 = b :: c
  ∧ insert (reset (insert (b :: c) inp).1) inp = insert (b :: c) inp.
Proof.
  intros Hc Hlen.
  assert (reset (insert (b :: c) inp).1 = b :: c) as H; [|by rewrite H].
  apply Forall_cons in Hc as [Hb Hc].
  unfold insert. cbn [insert_buckets].
  pose proof (reset_after_insert_bucket false b (sortSlice inp) [] Hb) as H.
  destruct (insert_bucket false b (sortSlice inp) []) as [[b' out'] ov].
  destruct H as [Hr ->].
  { by rewrite sortSlice_Permutation. }
  rewrite insert_buckets_nil. cbn [fst].
  change (reset (b' :: c)) with (reset_bucket b' :: reset c).
  by rewrite Hr, reset_fresh.
Qed.

Lemma reset_restores_when_input_fits_witness :
  let b := {| interval := Time.Hour; snaps_arr := [None; None];
              snaps_len := 0 |} in
  let inp := [at_minute 0; at_minute 65] in
  (Forall fresh_bucket [b] ∧ (length inp ≤ cap b)%nat)
  ∧ reset (insert [b] inp).1 = [b]
  ∧ insert (reset (insert [b] inp).1) inp = insert [b] inp.
Proof.
  assert (Forall fresh_bucket
            [{| interval := Time.Hour; snaps_arr := [None; None];
                snaps_len := 0 |}]) as H1 by (repeat constructor).
  assert (length [at_minute 0; at_minute 65]
          ≤ cap {| interval := Time.Hour; snaps_arr := [None; None];
                   snaps_len := 0 |})%nat as H2 by (unfold cap; simpl; lia).
  split; [by split|].
  exact (reset_restores_when_input_fits _ [] _ H1 H2).
Defined.

(** ** Interval literals *)

Lemma split_last_snoc ns u :
  BucketInterval.split_last (ns +:+ String u "") = Some (ns, u).
Proof.
  induction ns as [|a ns IH]; [done|].
  change (String a ns +:+ String u "") with (String a (ns +:+ String u "")).
  cbn [BucketInterval.split_last]. rewrite IH.
  by destruct ns.
Qed.

Lemma split_last_Some s ns u :
  BucketInterval.split_last s = Some (ns, u) → s = ns +:+ String u "".
Proof.
  revert ns. induction s as [|a s IH]; intros ns H; [done|].
  cbn [BucketInterval.split_last] in H. destruct s as [|a' s'].
  - by injection H as <- <-.
  - destruct (BucketInterval.split_last (String a' s')) as [[ns' u']|]; [|done].
    injection H as <- <-.
    change (String a ns' +:+ String u' "")
      with (String a (ns' +:+ String u' "")).
    f_equal. by apply IH.
Qed.

Lemma wrap64_range z :
  Time.minDuration <= BucketInterval.wrap64 z <= Time.maxDuration.
Proof.
  unfold BucketInterval.wrap64, Time.minDuration, Time.maxDuration.
  pose proof (Z.mod_pos_bound (z + 2 ^ 63) (2 ^ 64)). lia.
Qed.

Lemma wrap64_exact z :
  Time.minDuration <= z <= Time.maxDuration → BucketInterval.wrap64 z = z.
Proof.
  unfold BucketInterval.wrap64, Time.minDuration, Time.maxDuration. intros H.
  rewrite Z.mod_small; lia.
Qed.

Lemma split_last_None s : BucketInterval.split_last s = None → s = "".
Proof.
  induction s as [|a s IH]; [done|]. intros H. exfalso.
  destruct s as [|a' s']; [done|].
  change (BucketInterval.split_last (String a (String a' s')))
    with (match BucketInterval.split_last (String a' s') with
          | Some (ns, u) => Some (String a ns, u)
          | None => None
          end) in H.
  destruct (BucketInterval.split_last (String a' s')) as [[??]|] eqn:E;
    [done|].
  by specialize (IH eq_refl).
Qed.

Lemma unit_duration_Some u dur :
  BucketInterval.unit_duration u = Some dur
  ↔ (u, dur) ∈ [("s"%char, 1000000000); ("m"%char, 60000000000);
                ("h"%char, 3600000000000); ("d"%char, 86400000000000);
                ("w"%char, 604800000000000); ("M"%char, 2592000000000000);
                ("y"%char, 31536000000000000)].
Proof.
  unfold BucketInterval.unit_duration. split.
  - repeat case_decide; intros [= <-]; subst u;
      repeat first [apply list_elem_of_here | apply list_elem_of_further].
  - rewrite !elem_of_cons, elem_of_nil.
    intros [H|[H|[H|[H|[H|[H|[H|[]]]]]]]]; injection H as -> ->; reflexivity.
Qed.

Lemma unit_duration_None u :
  BucketInterval.unit_duration u = None
  ↔ u ∉ ["s"; "m"; "h"; "d"; "w"; "M"; "y"]%char.
Proof.
  unfold BucketInterval.unit_duration.
  rewrite !not_elem_of_cons. split.
  - repeat case_decide; try done. intros _.
    split_and!; try done. apply not_elem_of_nil.
  - intros (? & ? & ? & ? & ? & ? & ? & _).
    by repeat (case_decide; [done|]).
Qed.

(** X10.  [UnmarshalText] accepts a text exactly when it is a number that
    [strconv.Atoi] accepts followed by one of the units s, m, h, d, w, M
    and y, which stand for a second, 60 seconds, 3600 seconds, 24 hours, 7
    days, 30 days and 365 days, in nanoseconds: the interval is then the
    product of the number and the unit, as a 64-bit integer.  In every
    other case the interval is left as it was, and the error tells an
    empty text, a number that [Atoi] refuses, and a unit that is none of
    the seven, apart. *)
Theorem UnmarshalText_accepts Atoi d text d' :
  (BucketInterval.UnmarshalText Atoi d text = (d', None)
   ↔ ∃ ns u n dur,
       text = ns +:+ String u ""
       ∧ Atoi ns = Some n
       ∧ (u, dur) ∈ [("s"%char, 1000000000); ("m"%char, 60000000000);
                     ("h"%char, 3600000000000); ("d"%char, 86400000000000);
                     ("w"%char, 604800000000000);
                     ("M"%char, 2592000000000000);
                     ("y"%char, 31536000000000000)]
       ∧ d' = (n * dur + 2 ^ 63) `mod` 2 ^ 64 - 2 ^ 63)
  ∧ (∀ e, BucketInterval.UnmarshalText Atoi d text = (d', Some e) →
       d' = d
       ∧ (e = BucketInterval.Blank ↔ text = "")
       ∧ (e = BucketInterval.BadNumber
          ↔ ∃ ns u, text = ns +:+ String u "" ∧ Atoi ns = None)
       ∧ (∀ u, e = BucketInterval.BadUnit u
               ↔ ∃ ns n, text = ns +:+ String u "" ∧ Atoi ns = Some n
                         ∧ u ∉ ["s"; "m"; "h"; "d"; "w"; "M"; "y"]%char)).
Proof.
  unfold BucketInterval.UnmarshalText. split.
  - split.
    + destruct (BucketInterval.split_last text) as [[ns u]|] eqn:Hs; [|done].
      destruct (Atoi ns) as [n|] eqn:Hn; [|done].
      destruct (BucketInterval.unit_duration u) as [dur|] eqn:Hu; [|done].
      intros [= <-]. exists ns, u, n, dur.
      split_and!; [by apply split_last_Some|done| |done].
      by apply unit_duration_Some.
    + intros (ns & u & n & dur & -> & Hn & Hu%unit_duration_Some & ->).
      by rewrite split_last_snoc, Hn, Hu.
  - intros e.
    destruct (BucketInterval.split_last text) as [[ns u]|] eqn:Hs.
    2:{ intros [= -> <-]. apply split_last_None in Hs as ->.
        split_and!; [done|done| |].
        - split; [done|]. intros (ns & u & H & _). by destruct ns.
        - intros u. split; [done|]. intros (ns & n & H & _). by destruct ns. }
    apply split_last_Some in Hs as ->.
    assert (∀ ns' u', ns +:+ String u "" = ns' +:+ String u' "" →
              ns' = ns ∧ u' = u) as Hinj.
    { intros ns' u' H.
      pose proof (split_last_snoc ns u) as H1. rewrite H in H1.
      rewrite split_last_snoc in H1. by injection H1 as -> ->. }
    assert (ns +:+ String u "" ≠ "") as Hne by (by destruct ns).
    destruct (Atoi ns) as [n|] eqn:Hn.
    2:{ intros [= -> <-]. split_and!; [done|done| |].
        - split; [|done]. intros _. by exists ns, u.
        - intros u'. split; [done|].
          intros (ns' & n & [-> ->]%Hinj & Hn' & _). congruence. }
    destruct (BucketInterval.unit_duration u) as [dur|] eqn:Hu; [done|].
    intros [= -> <-]. split_and!; [done|done| |].
    + split; [done|]. intros (ns' & u' & [-> ->]%Hinj & Hn'). congruence.
    + intros u'. split.
      * intros [= <-]. exists ns, n. split_and!; [done|done|].
        by apply unit_duration_None.
      * by intros (ns' & n' & [-> ->]%Hinj & _).
Qed.

(** X11.  For a number and a unit whose product is a 64-bit duration, the
    interval is that product; in general it is the product modulo 2^64,
    within the range of a duration, so that a product out of range is a
    wrong interval and not an error. *)
Theorem UnmarshalText_value Atoi d ns u n dur :
  Atoi ns = Some n → BucketInterval.unit_duration u = Some dur →
  (∃ v, BucketInterval.UnmarshalText Atoi d (ns +:+ String u "") = (v, None)
        ∧ Time.minDuration <= v <= Time.maxDuration
        ∧ (v - n * dur) `mod` 2 ^ 64 = 0)
  ∧ (Time.minDuration <= n * dur <= Time.maxDuration →
     BucketInterval.UnmarshalText Atoi d (ns +:+ String u "") = (n * dur, None)).
Proof.
  intros Hn Hu. unfold BucketInterval.UnmarshalText.
  rewrite split_last_snoc, Hn, Hu. split.
  - eexists. split_and!; [done|apply wrap64_range..|].
    unfold BucketInterval.wrap64.
    replace ((n * dur + 2 ^ 63) `mod` 2 ^ 64 - 2 ^ 63 - n * dur)
      with (- (2 ^ 64 * ((n * dur + 2 ^ 63) `div` 2 ^ 64))).
    + rewrite Z.mul_comm, <-Z.mul_opp_l. apply Z.mod_mul. lia.
    + pose proof (Z.div_mod (n * dur + 2 ^ 63) (2 ^ 64)). lia.
  - intros H. by rewrite wrap64_exact.
Qed.

Lemma UnmarshalText_value_witness :
  let Atoi := λ s : string, if decide (s = "2") then Some 2 else None in
  (Atoi "2" = Some 2 ∧ BucketInterval.unit_duration "m" = Some Time.Minute)
  ∧ BucketInterval.UnmarshalText Atoi 0 "2m" = (2 * Time.Minute, None).
Proof.
  split; [by split|].
  refine (proj2 (UnmarshalText_value
    (λ s : string, if decide (s = "2") then Some 2 else None)
    0 "2" "m" 2 Time.Minute eq_refl eq_refl) _).
  by vm_compute.
Defined.


(** ** What [validate] checks *)

Lemma bucketJSON_validate_Ok b :
  bucketJSON_validate b = Ok () ↔ bucket_ok b.
Proof.
  unfold bucket_ok. destruct b as [[[iv|] [n|]]|]; simpl; split;
    try done; try (by intros (? & ? & [=])); eauto.
Qed.

Lemma validate_buckets_Ok l bs : ∀ i,
  validate_buckets l i bs = Ok () ↔ Forall bucket_ok bs.
Proof.
  induction bs as [|b bs IH]; intros i; simpl.
  - split; [constructor|done].
  - rewrite Forall_cons, <-bucketJSON_validate_Ok, <-(IH (S i)).
    destruct (bucketJSON_validate b) as [[]| |]; split; try done;
      by intros [? ?].
Qed.

Lemma profileJSON_validate_Ok p :
  profileJSON_validate p = Ok () ↔ profile_ok p.
Proof.
  unfold profile_ok. destruct p as [q|]; simpl.
  - destruct (Subvolume q) as [v|] eqn:Hv.
    + rewrite validate_buckets_Ok. split.
      * intros H. exists q. rewrite Hv. by split_and!.
      * by intros (? & [= <-] & _ & ?).
    + split; [done|]. intros (? & [= <-] & [? H] & _). congruence.
  - split; [done|]. by intros (? & ? & _).
Qed.

Lemma validate_profiles_Ok_iff ps :
  validate_profiles ps = Ok () ↔ Forall (λ e, profile_ok e.2) ps.
Proof.
  induction ps as [|[name p] ps IH]; simpl.
  - split; [constructor|done].
  - rewrite Forall_cons, <-profileJSON_validate_Ok, <-IH. simpl.
    destruct (profileJSON_validate p) as [[]| |]; split; try done;
      by intros [? ?].
Qed.

(** X12.  [configJSON.validate] returns no error exactly when every profile
    is there with a [Subvolume] and every bucket of every profile is there
    with an [Interval] and a [Size]; [Storage], [Backup] and the values of
    the intervals and sizes are not looked at.  A [range] over a map has no
    fixed order: whether a configuration passes does not depend on the
    order in which the profiles are met. *)
Theorem validate_accepts c :
  (configJSON_validate c = Ok () ↔ Forall (λ e, profile_ok e.2) (Profiles c))
  ∧ ∀ c', Profiles c' ≡ₚ Profiles c →
          (configJSON_validate c' = Ok () ↔ configJSON_validate c = Ok ()).
Proof.
  unfold configJSON_validate. split; [apply validate_profiles_Ok_iff|].
  intros c' Hp. rewrite !validate_profiles_Ok_iff. by rewrite Hp.
Qed.

(** ** What [loadConfig] reads and returns *)

Lemma validate_profiles_Err ps e :
  validate_profiles ps = Err e →
  ∃ name p e', e = ErrProfile name e' ∧ (name, p) ∈ ps ∧ ¬ profile_ok p.
Proof.
  induction ps as [|[name p] ps IH]; simpl; [done|].
  destruct (profileJSON_validate p) as [[]|e0|] eqn:Hp; [| |done].
  - intros (name' & p' & e' & -> & Hin & Hno)%IH.
    exists name', p', e'. split_and!; [done|by right|done].
  - intros [= <-]. exists name, p, e0. split_and!; [done|by left|].
    intros Hok%profileJSON_validate_Ok. congruence.
Qed.

(** C9.  [loadConfig] opens "config.json" and no other file, whatever file
    name it is given: its result is the same for every argument, and the
    same on every file system that has the same "config.json", whether the
    file of the argument is there or not.  When "config.json" cannot be
    opened the result is the error of opening "config.json"; when its
    content cannot be decoded, the error of the decoder; otherwise the
    decoded configuration, exactly when all its profiles are complete, and
    if not an error that names a profile that is not.  A [range] over the
    map of profiles has no fixed order: two calls that meet the profiles
    in different orders, whatever their arguments, both return the
    configuration or both fail. *)
Theorem loadConfig_ignores_filename open decode filename :
  (∀ filename2,
     loadConfig open decode filename = loadConfig open decode filename2)
  ∧ (∀ open2, open2 "config.json" = open "config.json" →
       loadConfig open2 decode filename = loadConfig open decode filename)
  ∧ (∀ name, loadConfig open decode filename = Err (ErrOpen name)
             ↔ name = "config.json" ∧ open "config.json" = None)
  ∧ (loadConfig open decode filename = Err ErrDecode
     ↔ ∃ f, open "config.json" = Some f ∧ decode f = None)
  ∧ (∀ cfg, loadConfig open decode filename = Ok cfg
            ↔ ∃ f, open "config.json" = Some f ∧ decode f = Some cfg
                   ∧ Forall (λ e, profile_ok e.2) (Profiles cfg))
  ∧ (∀ name e, loadConfig open decode filename = Err (ErrProfile name e) →
       ∃ f cfg p, open "config.json" = Some f ∧ decode f = Some cfg
                  ∧ (name, p) ∈ Profiles cfg ∧ ¬ profile_ok p)
  ∧ (∀ decode2 filename2,
       (∀ f, option_Forall2 (λ c1 c2, Profiles c1 ≡ₚ Profiles c2)
               (decode f) (decode2 f)) →
       (∀ cfg, loadConfig open decode filename = Ok cfg →
          ∃ cfg2, loadConfig open decode2 filename2 = Ok cfg2
                  ∧ Profiles cfg ≡ₚ Profiles cfg2)
       ∧ (∀ cfg2, loadConfig open decode2 filename2 = Ok cfg2 →
            ∃ cfg, loadConfig open decode filename = Ok cfg
                   ∧ Profiles cfg ≡ₚ Profiles cfg2)).
Proof.
  assert (∀ dec cfg, loadConfig open dec filename = Ok cfg
            ↔ ∃ f, open "config.json" = Some f ∧ dec f = Some cfg
                   ∧ Forall (λ e, profile_ok e.2) (Profiles cfg)) as HOk.
  { intros dec cfg. unfold loadConfig.
    destruct (open "config.json") as [f|].
    2:{ split; [done|]. by intros (f & ? & _). }
    destruct (dec f) as [cfg'|] eqn:Hd.
    2:{ split; [done|]. intros (f' & [= <-] & ? & _). congruence. }
    pose proof (validate_profiles_Ok_iff (Profiles cfg')) as Hv.
    unfold configJSON_validate.
    destruct (validate_profiles (Profiles cfg')) as [[]| |].
    - split.
      + intros [= <-]. exists f. split_and!; [done..|by apply Hv].
      + intros (f' & [= <-] & ? & _). congruence.
    - split; [done|]. intros (f' & [= <-] & E & HF).
      rewrite Hd in E. injection E as <-. by apply Hv in HF.
    - split; [done|]. intros (f' & [= <-] & E & HF).
      rewrite Hd in E. injection E as <-. by apply Hv in HF. }
  split_and!.
  - done.
  - intros open2 H. unfold loadConfig. by rewrite H.
  - intros name. unfold loadConfig.
    destruct (open "config.json") as [f|].
    2:{ split; [by intros [= <-]|by intros [-> _]]. }
    split; [|by intros [_ ?]].
    destruct (decode f) as [cfg|]; [|done]. unfold configJSON_validate.
    destruct (validate_profiles (Profiles cfg)) as [[]|e|] eqn:Hv; try done.
    apply validate_profiles_Err in Hv as (? & ? & ? & -> & _). done.
  - unfold loadConfig. destruct (open "config.json") as [f|].
    2:{ split; [done|]. by intros (f & ? & _). }
    destruct (decode f) as [cfg|] eqn:Hd.
    2:{ split; [|done]. intros _. by exists f. }
    split; [|intros (f' & [= <-] & ?); congruence].
    unfold configJSON_validate.
    destruct (validate_profiles (Profiles cfg)) as [[]|e|] eqn:Hv; try done.
    apply validate_profiles_Err in Hv as (? & ? & ? & -> & _). done.
  - apply HOk.
  - intros name e. unfold loadConfig.
    destruct (open "config.json") as [f|]; [|done].
    destruct (decode f) as [cfg|] eqn:Hd; [|done].
    unfold configJSON_validate.
    destruct (validate_profiles (Profiles cfg)) as [[]|e0|] eqn:Hv; try done.
    intros [= ->].
    apply validate_profiles_Err in Hv as (n & p & e' & [= <- <-] & Hin & Hno).
    by exists f, cfg, p.
  - intros decode2 filename2 Hd.
    assert (loadConfig open decode2 filename2
            = loadConfig open decode2 filename) as -> by done.
    split.
    + intros cfg (f & Hf & Hc & HF)%HOk.
      specialize (Hd f). rewrite Hc in Hd.
      destruct (decode2 f) as [y|] eqn:E; [|by inversion Hd].
      assert (Profiles cfg ≡ₚ Profiles y) as Hp by (by inversion Hd).
      exists y. split; [|done]. apply HOk. exists f.
      split_and!; [done|done|]. by rewrite <-Hp.
    + intros cfg2 (f & Hf & Hc & HF)%HOk.
      specialize (Hd f). rewrite Hc in Hd.
      destruct (decode f) as [y|] eqn:E; [|by inversion Hd].
      assert (Profiles y ≡ₚ Profiles cfg2) as Hp by (by inversion Hd).
      exists y. split; [|done]. apply HOk. exists f.
      split_and!; [done|done|]. by rewrite Hp.
Qed.

(** On a file system that has "config.json" and no other file, a call with
    another file name returns the configuration of "config.json". *)
Lemma loadConfig_ignores_filename_witness :
  let cfg := {| Profiles :=
    [("root", Some {| Subvolume := Some "/"; Storage := Some "/snap/root";
                      Buckets := [tier (2 * Time.Minute) 60];
                      Backup := None |})] |} in
  let open := λ name : string,
    if decide (name = "config.json") then Some "{}" else None in
  open "/etc/snap/config.json" = None
  ∧ loadConfig open (λ _, Some cfg) "/etc/snap/config.json" = Ok cfg.
Proof.
  intros cfg open. split; [reflexivity|].
  apply (proj2 (proj1 (proj2 (proj2 (proj2 (proj2
    (loadConfig_ignores_filename open (λ _, Some cfg)
       "/etc/snap/config.json"))))) cfg)).
  exists "{}". split_and!; [reflexivity|reflexivity|].
  repeat constructor. eexists. split_and!; [reflexivity|by eexists|].
  repeat constructor. by eexists _, _.
Defined.

Lemma validate_buckets_Err l bs : ∀ i e,
  validate_buckets l i bs = Err e
  ↔ ∃ k b e0, bs !! k = Some b ∧ Forall bucket_ok (take k bs)
              ∧ bucketJSON_validate b = Err e0
              ∧ e = ErrBucket (i + k + 1) l e0.
Proof.
  induction bs as [|b bs IH]; intros i e; simpl.
  - split; [done|]. by intros (k & ? & ? & ? & _).
  - destruct (bucketJSON_validate b) as [[]|e0|] eqn:Hb.
    + rewrite IH. split.
      * intros (k & b' & e1 & Hk & Hok & He & ->).
        exists (S k), b', e1. simpl. split_and!; [done| |done|f_equal; lia].
        constructor; [by apply bucketJSON_validate_Ok|done].
      * intros ([|k] & b' & e1 & Hk & Hok & He & ->); simpl in *.
        { injection Hk as <-. congruence. }
        exists k, b', e1. inv Hok. split_and!; [done..|f_equal; lia].
    + split.
      * intros [= <-]. exists 0%nat, b, e0. simpl.
        split_and!; [done|constructor|done|f_equal; lia].
      * intros ([|k] & b' & e1 & Hk & Hok & He & ->); simpl in *.
        { injection Hk as <-. rewrite Hb in He. injection He as <-.
          do 2 f_equal. lia. }
        inv Hok. apply bucketJSON_validate_Ok in H1. congruence.
    + split; [done|].
      intros ([|k] & b' & e1 & Hk & Hok & He & ->); simpl in *.
      { injection Hk as <-. congruence. }
      inv Hok. apply bucketJSON_validate_Ok in H1. congruence.
Qed.

(** X13.  For a profile that has a [Subvolume], the error of
    [profileJSON.validate] names the first bucket that lacks its [Interval]
    or its [Size], by its position counted from 1, with the number of
    buckets; the buckets before it are complete. *)
Theorem validate_names_first_bad_bucket p e :
  is_Some (Subvolume p) →
  (profileJSON_validate (Some p) = Err e
   ↔ ∃ k b e0,
       Buckets p !! k = Some b
       ∧ Forall bucket_ok (take k (Buckets p))
       ∧ bucketJSON_validate b = Err e0
       ∧ e = ErrBucket (k + 1) (length (Buckets p)) e0).
Proof.
  intros [v Hv]. simpl. rewrite Hv. by rewrite validate_buckets_Err.
Qed.

Lemma validate_names_first_bad_bucket_witness :
  let p := {| Subvolume := Some "/"; Storage := Some "/snap/root";
              Buckets := [tier Time.Hour 2;
                          Some {| Interval := Some Time.Hour;
                                  Size := None |}];
              Backup := None |} in
  is_Some (Subvolume p)
  ∧ profileJSON_validate (Some p) = Err (ErrBucket 2 2 ErrSizeMissing).
Proof.
  assert (is_Some (Subvolume
    {| Subvolume := Some "/"; Storage := Some "/snap/root";
       Buckets := [tier Time.Hour 2;
                   Some {| Interval := Some Time.Hour; Size := None |}];
       Backup := None |})) as H by (by eexists).
  split; [exact H|].
  apply (proj2 (validate_names_first_bad_bucket _ _ H)).
  exists 1%nat, (Some {| Interval := Some Time.Hour; Size := None |}),
    ErrSizeMissing.
  split_and!; [reflexivity| |reflexivity|reflexivity].
  repeat constructor. by exists Time.Hour, 2.
Defined.

(** ** More on [backupSingle] and [backup] *)

Lemma filter_all {A} (P : A → Prop) `{∀ x, Decision (P x)} l :
  Forall P l → filter P l = l.
Proof.
  induction 1 as [|x l Hx _ IH]; [done|].
  by rewrite filter_cons_True, IH.
Qed.

Lemma filter_none {A} (P : A → Prop) `{∀ x, Decision (P x)} l :
  Forall (λ x, ¬ P x) l → filter P l = [].
Proof.
  induction 1 as [|x l Hx _ IH]; [done|].
  by rewrite filter_cons_False.
Qed.

Lemma filter_StronglySorted {A} (R : relation A) (P : A → Prop)
    `{∀ x, Decision (P x)} l :
  StronglySorted R l → StronglySorted R (filter P l).
Proof.
  induction 1 as [|x l _ IH Hx]; [constructor|].
  destruct (decide (P x)).
  - rewrite filter_cons_True by done. constructor; [done|].
    apply Forall_forall. intros y [_ Hy]%list_elem_of_filter.
    by apply (proj1 (Forall_forall _ _) Hx).
  - by rewrite filter_cons_False.
Qed.

(** X14.  The arguments of [btrfs send] are "send", then each base of
    [have] behind a [-c], in the order of [have], then [-p] and the parent
    if there is one, then the snapshot.  Without a base older than the
    snapshot there is no parent, and the snapshot is sent whole. *)
Theorem sendArgs_lists_every_base s have :
  sendArgs s have
  = ["send"] ++ (have ≫= λ hs, ["-c"; subvolPath hs])
    ++ (if decide (parentPath s have = "") then []
        else ["-p"; parentPath s have])
    ++ [subvolPath s]
  ∧ (Forall (λ hs, created s <= created hs) have →
     parentPath s have = ""
     ∧ sendArgs s have
       = ["send"] ++ (have ≫= λ hs, ["-c"; subvolPath hs])
         ++ [subvolPath s]).
Proof.
  unfold parentPath, sendArgs. rewrite send_fold. cbn [fst snd].
  split.
  - destruct (decide _); by rewrite <-?(assoc (++)).
  - intros Hall. rewrite filter_none.
    + by cbn.
    + eapply Forall_impl; [done|]. simpl. lia.
Qed.

(** X15.  The timestamps of the source that the destination lacks are in
    [needS] and those it has are in [haveS], each once: a snapshot of the
    source (the last one with its timestamp) is in one of the two and not
    in both, and no timestamp is in both. *)
Theorem need_and_have_split_the_source src dst :
  (∀ s, by_created src !! created s = Some s
        ↔ s ∈ needS_of src dst ∨ s ∈ haveS_of src dst)
  ∧ (∀ n h, n ∈ needS_of src dst → h ∈ haveS_of src dst →
            created n ≠ created h)
  ∧ (∀ n, n ∈ needS_of src dst → ∀ d, d ∈ dst → created d ≠ created n)
  ∧ (∀ h, h ∈ haveS_of src dst → ∃ d, d ∈ dst ∧ created d = created h).
Proof.
  destruct (needS_of_spec src dst) as [_ Hn].
  destruct (haveS_of_spec src dst) as [_ Hh].
  split_and!.
  - intros s. rewrite Hn, Hh. split.
    + intros Hs.
      destruct (decide (Forall (λ d, created d ≠ created s) dst)) as [H|H].
      * left. split; [done|]. by apply Forall_forall.
      * right. split; [done|].
        apply not_Forall_Exists in H; [|apply _].
        apply Exists_exists in H as (d & Hd & Hne). exists d.
        split; [done|]. by apply dec_stable.
    + by intros [[? _]|[? _]].
  - intros n h [_ Hnd]%Hn [_ (d & Hd & Ht)]%Hh E.
    apply (Hnd d Hd). congruence.
  - intros n [_ Hnd]%Hn. done.
  - intros h [_ Hd]%Hh. done.
Qed.

Lemma StronglySorted_lt_lookup l i j x y :
  StronglySorted created_lt l → (i < j)%nat →
  l !! i = Some x → l !! j = Some y → created x < created y.
Proof.
  intros Hs. revert i j. induction Hs as [|z l _ IH Hz]; intros i j Hij Hi Hj.
  - done.
  - destruct j as [|j]; [lia|]. destruct i as [|i]; simpl in *.
    + injection Hi as <-. rewrite Forall_forall in Hz.
      apply Hz. by eapply list_elem_of_lookup_2.
    + apply (IH i j); [lia|done..].
Qed.

(** X16.  When every snapshot to send is newer than every base the two
    sides share, each call of [backupSingle] gets its bases in the order of
    their timestamps, all older than the snapshot, and the parent is the
    newest of them, the last of [have]. *)
Theorem parent_is_newest_base_when_sent_are_newer pipeline c src dst :
  (∀ h s, h ∈ haveS_of src dst → s ∈ toSend_of c src dst →
          created h < created s) →
  ∀ s have, (s, have) ∈ (backup_plan pipeline c src dst).1.2 →
    StronglySorted created_lt have
    ∧ Forall (λ hs, created hs < created s) have
    ∧ parentPath s have = from_option subvolPath "" (last have).
Proof.
  intros Hnew s have Hin. unfold backup_plan in Hin.
  pose proof (backup_loop_spec pipeline (unwanted_of c src dst)
                (needS_of src dst) (haveS_of src dst)) as H.
  cbv zeta in H. fold (toSend_of c src dst) in H.
  destruct (backup_loop pipeline (unwanted_of c src dst) (needS_of src dst)
              (haveS_of src dst)) as [calls r].
  simpl in Hin. destruct H as [[k Hk] _].
  apply list_elem_of_lookup in Hin as [i Hi].
  assert (plan_calls (haveS_of src dst) (toSend_of c src dst) !! i
          = Some (s, have)) as Hp by (rewrite Hk; by apply lookup_app_l_Some).
  apply plan_calls_lookup in Hp as [Hs ->].
  assert (StronglySorted created_lt (toSend_of c src dst)) as Hsorted.
  { apply filter_StronglySorted. by destruct (needS_of_spec src dst). }
  assert (Forall (λ hs, created hs < created s)
            (haveS_of src dst ++ take i (toSend_of c src dst))) as Hold.
  { apply Forall_app. split; apply Forall_forall; intros x Hx.
    - apply Hnew; [done|]. by eapply list_elem_of_lookup_2.
    - apply list_elem_of_lookup in Hx as [j Hj].
      apply lookup_take_Some in Hj as [Hj Hlt].
      by apply (StronglySorted_lt_lookup _ j i x s Hsorted). }
  split_and!; [|done|].
  - apply StronglySorted_app_2.
    + intros x y Hx Hy. apply Hnew; [done|].
      apply elem_of_take in Hy as (j & Hj & _).
      by eapply list_elem_of_lookup_2.
    + by destruct (haveS_of_spec src dst).
    + rewrite <-(take_drop i (toSend_of c src dst)) in Hsorted.
      by apply StronglySorted_app_1_l in Hsorted.
  - destruct (sendArgs_spec s (haveS_of src dst
                                 ++ take i (toSend_of c src dst))) as [-> _].
    rewrite filter_all by done. by destruct (last _).
Qed.

Lemma parent_is_newest_base_when_sent_are_newer_witness :
  let mk n := Snap ("/snap/root/" +:+ n) ("/snap/root/" +:+ n +:+ "/snapshot") in
  let src := [mk "100" 100; mk "200" 200; mk "300" 300] in
  let dst := [mk "100" 100] in
  let c := [{| interval := 10; snaps_arr := replicate 10 None;
               snaps_len := 0 |}] in
  (∀ h s, h ∈ haveS_of src dst → s ∈ toSend_of c src dst →
          created h < created s)
  ∧ parentPath (mk "300" 300) [mk "100" 100; mk "200" 200]
    = "/snap/root/200/snapshot".
Proof.
  set (mk := λ n, Snap ("/snap/root/" +:+ n)
                       ("/snap/root/" +:+ n +:+ "/snapshot")).
  set (src := [mk "100" 100; mk "200" 200; mk "300" 300]).
  set (dst := [mk "100" 100]).
  set (c := [{| interval := 10; snaps_arr := replicate 10 None;
                snaps_len := 0 |}]).
  assert (∀ h s, h ∈ haveS_of src dst → s ∈ toSend_of c src dst →
                 created h < created s) as H.
  { intros h s Hh Hs.
    assert (haveS_of src dst = [mk "100" 100]) as Eh by (by vm_compute).
    assert (toSend_of c src dst = [mk "200" 200; mk "300" 300]) as Es
      by (by vm_compute).
    rewrite Eh in Hh. rewrite Es in Hs.
    apply list_elem_of_singleton in Hh as ->.
    apply elem_of_cons in Hs as [->|Hs]; [reflexivity|].
    apply list_elem_of_singleton in Hs as ->. reflexivity. }
  split; [exact H|].
  refine (proj2 (proj2 (parent_is_newest_base_when_sent_are_newer
    (λ _ _, None) c src dst H (mk "300" 300)
    [mk "100" 100; mk "200" 200] _))).
  assert ((backup_plan (λ _ _, None) c src dst).1.2
          = [(mk "200" 200, [mk "100" 100]);
             (mk "300" 300, [mk "100" 100; mk "200" 200])]) as ->
    by (by vm_compute).
  apply elem_of_cons. right. apply list_elem_of_here.
Defined.

(** ** What [prune] removes *)

Section PruneFacts.

Variable findSnaps : string → result (list snap).
Variable Join : string → string → string.
Variable IsNotExist : string → bool.
Variable Run : list string → option error.
Variable os_Remove : string → option error.

Lemma prune_loop_dry out :
  prune_loop Join IsNotExist Run os_Remove true out = ([], Ok ()).
Proof.
  induction out as [|s out IH]; [done|]. cbn [prune_loop].
  unfold btrfsCmd. rewrite IH. by destruct (IsNotExist _).
Qed.

Lemma prune_loop_actions dryRun out :
  let '(acts, r) := prune_loop Join IsNotExist Run os_Remove dryRun out in
  (∀ a, a ∈ acts →
     ∃ s, s ∈ out
          ∧ (a = Btrfs ["subvolume"; "delete"; Join (path s) "snapshot"]
               ∧ IsNotExist (Join (path s) "snapshot") = false
             ∨ a = Remove (path s)))
  ∧ (r = Ok ()
     ∧ (dryRun = false →
        ∀ s, s ∈ out →
          Remove (path s) ∈ acts
          ∧ os_Remove (path s) = None
          ∧ (IsNotExist (Join (path s) "snapshot") = false →
             Btrfs ["subvolume"; "delete"; Join (path s) "snapshot"] ∈ acts
             ∧ Run ["subvolume"; "delete"; Join (path s) "snapshot"] = None))
     ∨ ∃ e, r = Err e ∧ dryRun = false).
Proof.
  induction out as [|s out IH]; cbn [prune_loop].
  { split; [by intros a ?%elem_of_nil|]. left. split; [done|].
    by intros _ s ?%elem_of_nil. }
  destruct (prune_loop Join IsNotExist Run os_Remove dryRun out)
    as [rest r]. destruct IH as [IHa IHr].
  unfold btrfsCmd. destruct dryRun.
  { destruct IHr as [[-> _]|(e & _ & ?)]; [|done].
    destruct (IsNotExist _); simpl.
    - split; [|left; by split].
      intros a Ha. destruct (IHa a Ha) as (x & Hx & H). exists x.
      split; [by right|done].
    - split; [|left; by split].
      intros a Ha. destruct (IHa a Ha) as (x & Hx & H). exists x.
      split; [by right|done]. }
  set (cmd := ["subvolume"; "delete"; Join (path s) "snapshot"]).
  assert (∀ a, a ∈ rest →
            ∃ x, x ∈ s :: out
                 ∧ (a = Btrfs ["subvolume"; "delete"; Join (path x) "snapshot"]
                      ∧ IsNotExist (Join (path x) "snapshot") = false
                    ∨ a = Remove (path x))) as Hrest.
  { intros a Ha. destruct (IHa a Ha) as (x & Hx & H). exists x.
    split; [by right|done]. }
  destruct (IsNotExist (Join (path s) "snapshot")) eqn:Hne; simpl.
  - destruct (os_Remove (path s)) as [e|] eqn:Hrm; simpl.
    + split; [|right; by exists e].
      intros a ->%list_elem_of_singleton. exists s. split; [by left|by right].
    + split.
      * intros a [->|Ha]%elem_of_cons; [|by apply Hrest].
        exists s. split; [by left|by right].
      * destruct IHr as [[-> IHr]|(e & -> & _)]; [left|right; by exists e].
        split; [done|]. intros _ x [->|Hx]%elem_of_cons.
        -- split_and!; [by left|done|]. rewrite Hne. done.
        -- destruct (IHr eq_refl x Hx) as (H1 & H2 & H3).
           split_and!; [by right|done|]. intros Hx'.
           destruct (H3 Hx') as [H4 H5]. split; [by right|done].
  - destruct (Run cmd) as [e|] eqn:Hrun; simpl.
    + split; [|right; by exists e].
      intros a ->%list_elem_of_singleton. exists s.
      split; [by left|by left].
    + destruct (os_Remove (path s)) as [e|] eqn:Hrm; simpl.
      * split; [|right; by exists e].
        intros a [->|Ha]%elem_of_cons.
        { exists s. split; [by left|by left]. }
        apply list_elem_of_singleton in Ha as ->.
        exists s. split; [by left|by right].
      * split.
        -- intros a [->|[->|Ha]%elem_of_cons]%elem_of_cons;
             [| |by apply Hrest].
           ++ exists s. split; [by left|by left].
           ++ exists s. split; [by left|by right].
        -- destruct IHr as [[-> IHr]|(e & -> & _)]; [left|right; by exists e].
           split; [done|]. intros _ x [->|Hx]%elem_of_cons.
           ++ split_and!; [right; by left|done|].
              intros _. split; [by left|done].
           ++ destruct (IHr eq_refl x Hx) as (H1 & H2 & H3).
              split_and!; [right; by right|done|]. intros Hx'.
              destruct (H3 Hx') as [H4 H5].
              split; [right; by right|done].
Qed.


End PruneFacts.

Lemma insert_first_bucket_kept b c inp :
  fresh_bucket b → (0 < cap b)%nat → inp ≠ [] →
  kept (insert (b :: c) inp).1 ≠ [].
Proof.
  intros Hb Hc Hne.
  destruct (insert_first_bucket_recent b c inp Hb Hc Hne)
    as (b' & z & r & Hh & _ & _ & Hr & _).
  destruct (insert (b :: c) inp).1 as [|b0 c0]; [done|].
  injection Hh as ->. intros E.
  change (kept (b' :: c0)) with (bucket_kept b' ++ kept c0) in E.
  apply app_eq_nil in E as [E _]. rewrite E in Hr. by inv Hr.
Qed.

(** X17.  With [--dry-run], [prune] runs no command and removes nothing:
    when the scan of the storage directory succeeds, it returns no error
    and has done nothing. *)
Theorem prune_dry_run_does_nothing
    findSnaps Join IsNotExist Run os_Remove c p dir snaps :
  Storage p = Some dir → findSnaps dir = Ok snaps →
  prune findSnaps Join IsNotExist Run os_Remove true c p
  = ((insert c snaps).1, [], Ok ()).
Proof.
  intros Hd Hf. unfold prune. rewrite Hd, Hf.
  destruct (insert c snaps) as [c' out]. by rewrite prune_loop_dry.
Qed.

Lemma prune_dry_run_does_nothing_witness :
  let p := {| Subvolume := Some "/"; Storage := Some "/snap/root";
              Buckets := [tier Time.Hour 1]; Backup := None |} in
  let c := [{| interval := Time.Hour; snaps_arr := [None];
               snaps_len := 0 |}] in
  let snaps := [at_minute 0; at_minute 30] in
  (Storage p = Some "/snap/root" ∧ Ok snaps = Ok snaps)
  ∧ prune (λ _, Ok snaps) String.append (λ _, false)
      (λ _, Some ErrTransfer) (λ _, Some ErrTransfer) true c p
    = ((insert c snaps).1, [], Ok ()).
Proof.
  split; [by split|].
  exact (prune_dry_run_does_nothing
    (λ _, Ok [at_minute 0; at_minute 30]) String.append (λ _, false)
    (λ _, Some ErrTransfer) (λ _, Some ErrTransfer)
    [{| interval := Time.Hour; snaps_arr := [None]; snaps_len := 0 |}]
    {| Subvolume := Some "/"; Storage := Some "/snap/root";
       Buckets := [tier Time.Hour 1]; Backup := None |}
    "/snap/root" _ eq_refl eq_refl).
Defined.



(** X19.  When the cascade starts empty and the snapshots of the scan have
    different directories, [prune] removes the directory of no snapshot
    that the cascade keeps; and when the first bucket has a cell and the
    scan finds a snapshot, the cascade keeps at least one: [prune] does not
    remove everything. *)
Theorem prune_spares_what_is_kept
    findSnaps Join IsNotExist Run os_Remove dryRun c p dir snaps :
  Storage p = Some dir → findSnaps dir = Ok snaps →
  Forall fresh_bucket c → NoDup (path <$> snaps) →
  let '(c', acts, r) :=
    prune findSnaps Join IsNotExist Run os_Remove dryRun c p in
  (∀ k, k ∈ kept c' → Remove (path k) ∉ acts)
  ∧ (∀ b c0, c = b :: c0 → (0 < cap b)%nat → snaps ≠ [] → kept c' ≠ []).
Proof.
  intros Hd Hf Hc Hnd. unfold prune. rewrite Hd, Hf.
  destruct (insert_content c snaps) as [_ Hperm].
  rewrite (fresh_kept c Hc) in Hperm. simpl in Hperm.
  pose proof (λ b c0 (E : c = b :: c0) H1 H2,
    insert_first_bucket_kept b c0 snaps
      (Forall_inv (eq_ind c _ Hc _ E)) H1 H2) as Hkept.
  destruct (insert c snaps) as [c' out] eqn:Hins. simpl in Hperm.
  pose proof (prune_loop_actions Join IsNotExist Run os_Remove dryRun out)
    as H.
  destruct (prune_loop Join IsNotExist Run os_Remove dryRun out)
    as [acts r]. destruct H as [Hacts _]. split.
  - intros k Hk Ha. destruct (Hacts _ Ha) as (s & Hs & [[[=] _]|[= Hp]]).
    rewrite <-Hperm, fmap_app in Hnd.
    apply NoDup_app in Hnd as (_ & Hdis & _).
    apply (Hdis (path k)); [by apply list_elem_of_fmap_2|].
    rewrite Hp. by apply list_elem_of_fmap_2.
  - intros b c0 -> Hcap Hne. specialize (Hkept b c0 eq_refl Hcap Hne).
    by rewrite Hins in Hkept.
Qed.

Lemma prune_spares_what_is_kept_witness :
  let p := {| Subvolume := Some "/"; Storage := Some "/snap/root";
              Buckets := [tier Time.Hour 1]; Backup := None |} in
  let c := [{| interval := Time.Hour; snaps_arr := [None];
               snaps_len := 0 |}] in
  let snaps := [Snap "/snap/root/a" "" 0;
                Snap "/snap/root/b" "" (30 * Time.Minute)] in
  (Storage p = Some "/snap/root" ∧ Ok snaps = Ok snaps
   ∧ Forall fresh_bucket c ∧ NoDup (path <$> snaps))
  ∧ kept (prune (λ _, Ok snaps) String.append (λ _, false)
            (λ _, None) (λ _, None) false c p).1.1 ≠ [].
Proof.
  set (p := {| Subvolume := Some "/"; Storage := Some "/snap/root";
               Buckets := [tier Time.Hour 1]; Backup := None |}).
  set (c := [{| interval := Time.Hour; snaps_arr := [None];
                snaps_len := 0 |}]).
  set (snaps := [Snap "/snap/root/a" "" 0;
                 Snap "/snap/root/b" "" (30 * Time.Minute)]).
  assert (Forall fresh_bucket c) as H1 by (repeat constructor).
  assert (NoDup (path <$> snaps)) as H2.
  { apply NoDup_cons_2; [|apply NoDup_singleton].
    intros H%list_elem_of_singleton. discriminate. }
  split; [by split_and!|].
  pose proof (prune_spares_what_is_kept
    (λ _, Ok snaps) String.append (λ _, false) (λ _, None) (λ _, None)
    false c p "/snap/root" snaps eq_refl eq_refl H1 H2) as H.
  destruct (prune _ _ _ _ _ _ _ _) as [[c' acts] r].
  destruct H as [_ H]. simpl.
  apply (H _ [] eq_refl); [unfold cap; simpl; lia|discriminate].
Defined.

(** ** The arguments that are printed *)

Lemma safe_byte_spec ch :
  safe_byte ch = true
  ↔ ch ∈ String.list_ascii_of_string
      "-./@_0123456789ABCDEFGHIJKLMNOPQRSTUVWXYZabcdefghijklmnopqrstuvwxyz".
Proof.
  assert (safe_byte ch
          = bool_decide (ch ∈ String.list_ascii_of_string
              "-./@_0123456789ABCDEFGHIJKLMNOPQRSTUVWXYZabcdefghijklmnopqrstuvwxyz"))
    as ->; [|apply bool_decide_eq_true].
  by destruct ch as [[] [] [] [] [] [] [] []]; vm_compute.
Qed.

Lemma needs_quote_spec a :
  needs_quote a = false
  ↔ Forall (λ ch, ch ∈ String.list_ascii_of_string
      "-./@_0123456789ABCDEFGHIJKLMNOPQRSTUVWXYZabcdefghijklmnopqrstuvwxyz")
      (String.list_ascii_of_string a).
Proof.
  induction a as [|ch a IH]; cbn [needs_quote String.list_ascii_of_string].
  - split; [constructor|done].
  - rewrite Forall_cons, <-IH, <-safe_byte_spec, orb_false_iff,
      negb_false_iff. done.
Qed.

(** X20.  [escapedArgs] leaves an argument as it is when each of its bytes
    is a letter of a-z or A-Z, a digit or one of [-./@_], and quotes it
    with [%q] when it has any other byte.  A list with more than [max]
    arguments, for a positive [max], is cut down to its first argument,
    "..." and its last [max] arguments, which makes [max + 2] of them: one
    more than the list had when it had [max + 1].  Any other list keeps
    all its arguments. *)
Theorem escapedArgs_shape Quote args max :
  let plain a :=
    Forall (λ ch, ch ∈ String.list_ascii_of_string
      "-./@_0123456789ABCDEFGHIJKLMNOPQRSTUVWXYZabcdefghijklmnopqrstuvwxyz")
      (String.list_ascii_of_string a) in
  let esc a := if decide (plain a) then a else Quote a in
  (0 < max < Z.of_nat (length args) →
   ∃ a0 rest,
     args = a0 :: rest
     ∧ escapedArgs Quote args max
       = esc a0 :: "..." :: (esc <$> drop (length args - Z.to_nat max) args)
     ∧ Z.of_nat (length (escapedArgs Quote args max)) = max + 2)
  ∧ (¬ 0 < max < Z.of_nat (length args) →
     escapedArgs Quote args max = esc <$> args
     ∧ (Forall plain args → escapedArgs Quote args max = args)).
Proof.
  intros plain esc.
  assert (∀ a, escape Quote a = esc a) as Hesc.
  { intros a. unfold escape, esc.
    pose proof (needs_quote_spec a) as H. fold (plain a) in H.
    destruct (needs_quote a); case_decide; try done.
    - by apply H in H0.
    - by destruct H0; apply H. }
  assert (∀ l : list string, escape Quote <$> l = esc <$> l) as Hfmap.
  { intros l. apply list_fmap_ext. intros ? a _. apply Hesc. }
  unfold escapedArgs. split.
  - intros [H1 H2].
    destruct (Z.ltb_spec 0 max); [|lia].
    destruct (Z.ltb_spec max (Z.of_nat (length args))); [|lia]. simpl.
    destruct args as [|a0 rest]; [simpl in H2; lia|].
    exists a0, rest. split_and!; [done| |].
    + by rewrite !fmap_cons, Hfmap, Hesc.
    + rewrite !fmap_cons, !length_cons, length_fmap, length_drop. simpl in *.
      lia.
  - intros H.
    assert ((0 <? max) && (max <? Z.of_nat (length args)) = false) as ->.
    { apply andb_false_iff.
      destruct (Z.ltb_spec 0 max); [|by left].
      destruct (Z.ltb_spec max (Z.of_nat (length args))); [lia|by right]. }
    split; [apply Hfmap|]. intros HF. rewrite Hfmap. clear H.
    induction HF as [|a l Ha _ IH]; [done|].
    rewrite fmap_cons, IH. unfold esc. by rewrite decide_True.
Qed.

(** ** The order of the files that are listed *)

Lemma string_compare_refl s : String.compare s s = Eq.
Proof.
  induction s as [|a s IH]; [done|]. simpl.
  unfold Ascii.compare. by rewrite N.compare_refl.
Qed.

Lemma string_compare_lt_trans s1 : ∀ s2 s3,
  String.compare s1 s2 = Lt → String.compare s2 s3 = Lt →
  String.compare s1 s3 = Lt.
Proof.
  induction s1 as [|a1 s1 IH]; intros [|a2 s2] [|a3 s3]; simpl; try done.
  unfold Ascii.compare.
  destruct (N.compare_spec (N_of_ascii a1) (N_of_ascii a2)) as [E12|L12|G12];
    destruct (N.compare_spec (N_of_ascii a2) (N_of_ascii a3)) as [E23|L23|G23];
    try done; intros H12 H23.
  - rewrite E12, E23, N.compare_refl. by apply (IH s2).
  - by rewrite E12, (proj2 (N.compare_lt_iff _ _) L23).
  - by rewrite <-E23, (proj2 (N.compare_lt_iff _ _) L12).
  - assert (N_of_ascii a1 < N_of_ascii a3)%N as L13 by lia.
    by rewrite (proj2 (N.compare_lt_iff _ _) L13).
Qed.

(** X21.  [Less] is a strict order on the files listed, by name and then
    by modification time: no file is before itself, the order is
    transitive, and two files neither of which is before the other have the
    same name and the same modification time. *)
Theorem Less_is_a_strict_order :
  (∀ a, FileBackup.Less a a = false)
  ∧ (∀ a b c, FileBackup.Less a b = true → FileBackup.Less b c = true →
              FileBackup.Less a c = true)
  ∧ (∀ a b, FileBackup.Less a b = false → FileBackup.Less b a = false →
            FileBackup.Name a = FileBackup.Name b
            ∧ FileBackup.ModTime a = FileBackup.ModTime b).
Proof.
  unfold FileBackup.Less, Time.Before, String.ltb. split_and!.
  - intros a. rewrite decide_True by done. apply Z.ltb_irrefl.
  - intros a b c.
    destruct (decide (FileBackup.Name a = FileBackup.Name b)) as [Eab|Nab];
      destruct (decide (FileBackup.Name b = FileBackup.Name c)) as [Ebc|Nbc].
    + rewrite decide_True by congruence. lia.
    + rewrite decide_False by congruence. rewrite Eab. done.
    + rewrite decide_False by congruence. rewrite <-Ebc. done.
    + destruct (String.compare (FileBackup.Name a) (FileBackup.Name b))
        eqn:Hab; try done.
      destruct (String.compare (FileBackup.Name b) (FileBackup.Name c))
        eqn:Hbc; try done.
      intros _ _.
      pose proof (string_compare_lt_trans _ _ _ Hab Hbc) as Hac.
      rewrite decide_False; [by rewrite Hac|].
      intros E. rewrite E, string_compare_refl in Hac. done.
  - intros a b.
    destruct (decide (FileBackup.Name a = FileBackup.Name b)) as [E|N].
    + rewrite decide_True by done. split; [done|lia].
    + rewrite decide_False by congruence.
      rewrite (String.compare_antisym (FileBackup.Name a)).
      destruct (String.compare (FileBackup.Name b) (FileBackup.Name a))
        eqn:Hc; simpl; try done.
      apply String.compare_eq_iff in Hc. congruence.
Qed.

(** ** From the configuration to the cascade *)

Lemma addBuckets_result bs : ∀ c,
  Forall bucket_ok bs →
  (∃ c', addBuckets c bs = Ok (c ++ c'))
  ∨ (addBuckets c bs = Panic
     ∧ Exists (λ b, ∃ iv n, b = tier iv n ∧ (n < 0 ∨ 2 ^ 45 < n)) bs).
Proof.
  induction bs as [|b bs IH]; intros c Hok.
  - left. exists []. by rewrite app_nil_r.
  - apply Forall_cons in Hok as [(iv & n & ->) Hok]. simpl.
    destruct (make_snaps n) as [arr|] eqn:Hn.
    + destruct (IH (c ++ [{| interval := iv; snaps_arr := arr;
                             snaps_len := 0 |}]) Hok)
        as [(c' & ->)|[-> Hex]].
      * left. eexists (_ :: c'). by rewrite <-(assoc (++)).
      * right. split; [done|]. by right.
    + right. split; [done|]. left. exists iv, n.
      split; [done|]. by apply make_snaps_None.
Qed.

(** X22.  For the buckets of a profile that [validate] accepts, the loop
    of [app.run] that builds the cascade returns no error, and it panics
    exactly when [make] refuses a [Size]: a negative one, or one above
    2^45, the number of cells of 8 bytes that fit the 2^48 bytes that
    [makeslice] allows on 64-bit Linux.  When the loop ends, it has
    appended one empty bucket for each tier, in order, with the interval
    of the tier and as many cells as its [Size]; a [Size] of zero gives a
    bucket without cells. *)
Theorem addBuckets_after_validate c bs :
  Forall bucket_ok bs →
  (∀ e, addBuckets c bs ≠ Err e)
  ∧ (addBuckets c bs = Panic
     ↔ Exists (λ b, ∃ iv n, b = tier iv n ∧ (n < 0 ∨ 2 ^ 45 < n)) bs)
  ∧ (∀ c1, addBuckets c bs = Ok c1 →
       ∃ c', c1 = c ++ c'
         ∧ Forall fresh_bucket c'
         ∧ Forall2 (λ b b0, ∃ iv n, b = tier iv n ∧ 0 <= n <= 2 ^ 45
                              ∧ interval b0 = iv ∧ cap b0 = Z.to_nat n)
             bs c').
Proof.
  intros Hok. split_and!.
  - intros e. by destruct (addBuckets_result bs c Hok) as [[c' ->]|[-> _]].
  - split.
    + intros Hp. by destruct (addBuckets_result bs c Hok) as [[c' E]|[_ H]];
        [congruence|].
    + intros (b & Hb & iv & n & -> & Hn)%Exists_exists.
      destruct (addBuckets c bs) as [c1| |] eqn:E; [| |done].
      * apply addBuckets_Ok in E as (c' & _ & _ & HF).
        apply list_elem_of_lookup in Hb as [i Hi].
        destruct (Forall2_lookup_l _ _ _ _ _ HF Hi)
          as (b0 & _ & iv' & n' & [= <- <-] & Hr & _). lia.
      * by destruct (addBuckets_result bs c Hok) as [[c' E']|[E' _]];
          congruence.
  - intros c1 H. by apply addBuckets_Ok in H.
Qed.

Lemma addBuckets_after_validate_witness :
  let c1 := [{| interval := Time.Hour; snaps_arr := [None; None];
                snaps_len := 0 |};
             {| interval := Time.Hour; snaps_arr := []; snaps_len := 0 |}] in
  (Forall bucket_ok [tier Time.Hour 2; tier Time.Hour 0]
   ∧ addBuckets newCascade [tier Time.Hour 2; tier Time.Hour 0] = Ok c1)
  ∧ ∃ c', c1 = newCascade ++ c'
      ∧ Forall fresh_bucket c'
      ∧ Forall2 (λ b b0, ∃ iv n, b = tier iv n ∧ 0 <= n <= 2 ^ 45
                           ∧ interval b0 = iv ∧ cap b0 = Z.to_nat n)
          [tier Time.Hour 2; tier Time.Hour 0] c'.
Proof.
  intros c1.
  assert (Forall bucket_ok [tier Time.Hour 2; tier Time.Hour 0]) as H.
  { repeat constructor; [by exists Time.Hour, 2|by exists Time.Hour, 0]. }
  split; [split; [exact H|reflexivity]|].
  exact (proj2 (proj2 (addBuckets_after_validate newCascade _ H)) c1 eq_refl).
Defined.

Lemma parentPath_sorted_witness :
  let mk n := Snap ("/snap/root/" +:+ n) ("/snap/root/" +:+ n +:+ "/snapshot") in
  let have := [mk "100" 100; mk "200" 200; mk "300" 300] in
  (StronglySorted created_le have ∧ mk "100" 100 ∈ have
   ∧ created (mk "100" 100) < created (mk "250" 250))
  ∧ ∃ p, p ∈ have
         ∧ parentPath (mk "250" 250) have = subvolPath p
         ∧ created p < created (mk "250" 250)
         ∧ created (mk "100" 100) <= created p.
Proof.
  set (mk := λ n, Snap ("/snap/root/" +:+ n)
                       ("/snap/root/" +:+ n +:+ "/snapshot")).
  assert (StronglySorted created_le
            [mk "100" 100; mk "200" 200; mk "300" 300]) as H1
    by (repeat constructor; unfold created_le; simpl; lia).
  assert (mk "100" 100 ∈ [mk "100" 100; mk "200" 200; mk "300" 300]) as H2
    by apply list_elem_of_here.
  assert (created (mk "100" 100) < created (mk "250" 250)) as H3
    by reflexivity.
  split; [by split_and!|].
  exact (parentPath_sorted (mk "250" 250) _ (mk "100" 100) H1 H2 H3).
Defined.

(** The run of [insert] in [app.backup] is on the snapshots of the
    destination and all of [needS], the prune that follows on the
    snapshots of the destination and those sent, and the two may differ on
    a snapshot: with one bucket of ten seconds and one cell, the
    destination holding the snapshot of second 7 and the source those of
    seconds 0 and 10, the snapshot of second 10 is sent and evicted by the
    next [insert]. *)
Example sent_snapshot_evicted_by_next_prune :
  let mk n := Snap "" "" (n * Time.Second) in
  let c := [{| interval := 10 * Time.Second; snaps_arr := [None];
               snaps_len := 0 |}] in
  toSend_of c [mk 0; mk 10] [mk 7] = [mk 10]
  ∧ insert c ([mk 7] ++ [mk 10])
    = ([{| interval := 10 * Time.Second; snaps_arr := [Some (mk 7)];
           snaps_len := 1 |}], [mk 10]).
Proof. by vm_compute. Qed.
